(** * SEPCMaths: the two routines of [c_ext/SEPCMaths.c]

    A shallow embedding of [iterateRationalApproximation] (the mediant search
    for a fraction [a/b] near a target double) and of [intSign].

    - C [int] is a 32-bit two's-complement integer, carried as a [Z] in
      [-2^31, 2^31).  Signed overflow is undefined in ISO C; the embedding
      gives [+=] the wrap-around of the usual targets ([add32]) and states
      separately when a sum leaves the range ([step_overflows]).
    - C [double] is IEEE-754 binary64, carried as [spec_float] with the
      operations of the specification of floating-point arithmetic of the
      standard library at [prec = 53], [emax = 1024]; every operation on
      [ab] is one correctly rounded binary64 operation.
    - The [while] loop is unbounded, so it is run with fuel: [None] means that
      the loop is still running when the fuel is spent. *)

From Stdlib Require Import ZArith Znumtheory Lia Bool List QArith.
From Stdlib Require Import Floats.SpecFloat.
Import ListNotations.
Local Open Scope Z_scope.

(** ** C [int] *)

Definition INT_MIN : Z := - 2 ^ 31.
Definition INT_MAX : Z := 2 ^ 31 - 1.

Definition in_int (z : Z) : Prop := INT_MIN <= z <= INT_MAX.

Definition in_intb (z : Z) : bool := (INT_MIN <=? z) && (z <=? INT_MAX).

(** Two's-complement reduction of an exact result to 32 bits. *)
Definition wrap32 (z : Z) : Z := (z + 2 ^ 31) mod 2 ^ 32 - 2 ^ 31.

(** [x += y] on [int]. *)
Definition add32 (x y : Z) : Z := wrap32 (x + y).

(** ** C [double] *)

Definition prec : Z := 53.
Definition emax : Z := 1024.

Definition double : Type := spec_float.

(** [(double) z] for an [int] (every 32-bit integer is representable). *)
Definition double_of_int (z : Z) : double := binary_normalize prec emax z 0 false.

Definition fdiv (x y : double) : double := SFdiv prec emax x y.
Definition fsub (x y : double) : double := SFsub prec emax x y.
Definition fabs (x : double) : double := SFabs x.

(** The C comparisons [x == y], [x < y], [x >= y]: all false on NaN. *)
Definition feq (x y : double) : bool := SFeqb x y.
Definition flt (x y : double) : bool := SFltb x y.
Definition fle (x y : double) : bool := SFleb x y.
Definition fge (x y : double) : bool :=
  match SFcompare x y with
  | Some (Gt | Eq) => true
  | _ => false
  end.

Definition is_nan (x : double) : bool :=
  match x with S754_nan => true | _ => false end.

Definition is_inf (x : double) : bool :=
  match x with S754_infinity _ => true | _ => false end.

Definition fzero : double := S754_zero false.

Definition is_finite (x : double) : bool :=
  match x with S754_zero _ | S754_finite _ _ _ => true | _ => false end.

(** [(double) a/b]: both operands converted, then one IEEE division. *)
Definition ratio (a b : Z) : double := fdiv (double_of_int a) (double_of_int b).

(** ** [intSign] *)

(** The function on the two [int]s that the parse stored: [zero] is the
    optional keyword argument, [0] when the caller omits it; [>>] on a
    negative [int] is the arithmetic shift. *)
Definition intSign (num : Z) (zero : option Z) : Z :=
  let zero := match zero with Some z => z | None => 0 end in
  if Z.land num num =? 0 then zero else Z.lor (Z.shiftr num 31) 1.

(** The specified behaviour of the sign function, by comparison. *)
Definition sign_spec (num zero : Z) : Z :=
  if num =? 0 then zero else if 0 <? num then 1 else -1.

(** Format [i] of [PyArg_ParseTupleAndKeywords] on a Python integer: a value
    that does not fit an [int] raises OverflowError and the parse fails. *)
Definition parse_int (z : Z) : option Z := if in_intb z then Some z else None.

(** The entry point on Python integers (format [i|i]): [None] is the [NULL]
    that the function returns when the parse fails. *)
Definition py_intSign (num : Z) (zero : option Z) : option Z :=
  match parse_int num with
  | None => None
  | Some n =>
      match zero with
      | None => Some (intSign n None)
      | Some z =>
          match parse_int z with
          | None => None
          | Some z' => Some (intSign n (Some z'))
          end
      end
  end.

(** ** [iterateRationalApproximation] *)

(** The arguments as [PyArg_ParseTuple] stores them (format [iiiiiiddi]). *)
Record Args : Type := mkArgs {
  arg_a : Z; arg_b : Z;
  arg_lowerA : Z; arg_lowerB : Z;
  arg_upperA : Z; arg_upperB : Z;
  mantissa : double; precision : double;
  microIterations : Z
}.

(** The locals that the loops update; [ab] is the cached ratio. *)
Record state : Type := mkState {
  a : Z; b : Z;
  lowerA : Z; lowerB : Z;
  upperA : Z; upperB : Z;
  ab : double
}.

Definition init (g : Args) : state :=
  mkState (arg_a g) (arg_b g) (arg_lowerA g) (arg_lowerB g)
          (arg_upperA g) (arg_upperB g) (ratio (arg_a g) (arg_b g)).

Section Approximation.
Variable m : double.      (* mantissa *)
Variable p : double.      (* precision *)
Variable micro : Z.       (* microIterations *)

(** The test of the [while]: [fabs(ab - mantissa) >= precision]. *)
Definition loop_cond (s : state) : bool := fge (fabs (fsub (ab s) m)) p.

(** The body of the [for] after the [break] test: one mediant step. *)
Definition mediant_step (s : state) : state :=
  if flt (ab s) m then
    let a' := add32 (a s) (upperA s) in
    let b' := add32 (b s) (upperB s) in
    mkState a' b' (a s) (b s) (upperA s) (upperB s) (ratio a' b')
  else
    let a' := add32 (a s) (lowerA s) in
    let b' := add32 (b s) (lowerB s) in
    mkState a' b' (lowerA s) (lowerB s) (a s) (b s) (ratio a' b').

(** [for (i = 0; i < microIterations; i++)] with [n] iterations left. *)
Fixpoint for_loop (n : nat) (s : state) : state :=
  match n with
  | O => s
  | S k => if feq (ab s) m then s else for_loop k (mediant_step s)
  end.

(** One pass of the [while] body. *)
Definition batch (s : state) : state := for_loop (Z.to_nat micro) s.

Fixpoint while_loop (fuel : nat) (s : state) : option state :=
  match fuel with
  | O => None
  | S k => if loop_cond s then while_loop k (batch s) else Some s
  end.

(** Whether the sums of the step taken from [s] leave the [int] range. *)
Definition step_overflows (s : state) : bool :=
  if flt (ab s) m then
    negb (in_intb (a s + upperA s) && in_intb (b s + upperB s))
  else
    negb (in_intb (a s + lowerA s) && in_intb (b s + lowerB s)).

(** The same loops, stopping at the first sum that leaves the range. *)
Inductive outcome : Type :=
| Done (s : state)
| Overflow
| Running.

Fixpoint for_loop_chk (n : nat) (s : state) : option state :=
  match n with
  | O => Some s
  | S k =>
      if feq (ab s) m then Some s
      else if step_overflows s then None
      else for_loop_chk k (mediant_step s)
  end.

Fixpoint while_loop_chk (fuel : nat) (s : state) : outcome :=
  match fuel with
  | O => Running
  | S k =>
      if loop_cond s then
        match for_loop_chk (Z.to_nat micro) s with
        | Some s' => while_loop_chk k s'
        | None => Overflow
        end
      else Done s
  end.
End Approximation.

(** The function after its arguments are parsed: [Some (a, b)] is the tuple
    built by [Py_BuildValue]. *)
Definition iterateRationalApproximation (fuel : nat) (g : Args) : option (Z * Z) :=
  match while_loop (mantissa g) (precision g) (microIterations g) fuel (init g) with
  | Some s => Some (a s, b s)
  | None => None
  end.

(** The entry point: [None] for [parsed] is a failed [PyArg_ParseTuple], on
    which the function returns [NULL]; that is its only error exit. *)
Inductive PyResult : Type :=
| PyNULL
| PyTuple (x y : Z).

Definition py_iterateRationalApproximation (fuel : nat) (parsed : option Args)
  : option PyResult :=
  match parsed with
  | None => Some PyNULL
  | Some g =>
      match iterateRationalApproximation fuel g with
      | Some (x, y) => Some (PyTuple x y)
      | None => None
      end
  end.

(** Doubles that are powers of two. *)
Definition pow2 (e : Z) : double := binary_normalize prec emax 1 e false.

Definition spec_example : Args :=
  mkArgs 0 1 0 1 1 1 (pow2 (-1)) (pow2 (-10)) 1.


(** ** Predicates on arguments and states *)

(** [|x/y - mantissa| < precision], evaluated as the code evaluates it. *)
Definition within_tolerance (m p : double) (x y : Z) : bool :=
  flt (fabs (fsub (ratio x y) m)) p.

(** The cached [ab] is the ratio of the current candidate. *)
Definition consistent (s : state) : Prop := ab s = ratio (a s) (b s).

Definition ints_in_range (s : state) : Prop :=
  in_int (a s) /\ in_int (b s) /\ in_int (lowerA s) /\ in_int (lowerB s)
  /\ in_int (upperA s) /\ in_int (upperB s).

Definition positive_denominators (s : state) : Prop :=
  0 < b s /\ 0 < lowerB s /\ 0 < upperB s.

Definition nonzero_denominators (s : state) : Prop :=
  b s <> 0 /\ lowerB s <> 0 /\ upperB s <> 0.

(** [lowerA/lowerB <= mantissa <= upperA/upperB] on the double ratios. *)
Definition bracket (m : double) (s : state) : bool :=
  fle (ratio (lowerA s) (lowerB s)) m && fle m (ratio (upperA s) (upperB s)).

(** Exact fractions, for positive denominators. *)
Definition frac (n d : Z) : Q := n # Z.to_pos d.

Definition lower_frac (s : state) : Q := frac (lowerA s) (lowerB s).
Definition upper_frac (s : state) : Q := frac (upperA s) (upperB s).
Definition candidate_frac (s : state) : Q := frac (a s) (b s).

(** The candidate lies strictly between the bounds, in exact arithmetic. *)
Definition strictly_inside (s : state) : Prop :=
  (lower_frac s < candidate_frac s)%Q /\ (candidate_frac s < upper_frac s)%Q.

(** [[lower, upper]] of [s'] is strictly inside that of [s] at one end and
    equal at the other. *)
Definition interval_strictly_shrinks (s s' : state) : Prop :=
  ((lower_frac s < lower_frac s')%Q /\ (upper_frac s' == upper_frac s)%Q)
  \/ ((lower_frac s' == lower_frac s)%Q /\ (upper_frac s' < upper_frac s)%Q).

(** ** Concrete calls *)

(** The example of the specification with every integer scaled by [2^30]:
    the mediant [2^30 / 2^31] that would hit [0.5] does not fit an [int]. *)
Definition scaled_example : Args :=
  mkArgs 0 (2 ^ 30) 0 (2 ^ 30) (2 ^ 30) (2 ^ 30) (pow2 (-1)) (pow2 (-10)) 1.

(** A call with two steps per pass whose first step already meets the
    tolerance: target [0.5 + 2^-10], precision [2^-4]. *)
Definition overshoot_example : Args :=
  mkArgs 1 1 0 1 1 1 (binary_normalize prec emax (2 ^ 9 + 1) (-10) false) (pow2 (-4)) 2.

(** A call whose candidate has a negative denominator, between bounds with
    positive ones. *)
Definition negative_candidate_example : Args :=
  mkArgs 1 (-1) 0 1 1 1 (pow2 (-1)) (pow2 (-10)) 1.

(** A search for [1/8] from [1/2] between [0/1] and [1/1]: every candidate
    is above the target. *)
Definition descending_example : Args :=
  mkArgs 1 2 0 1 1 1 (pow2 (-3)) (pow2 (-10)) 1.

(** A call with two steps per pass whose bounds enclose the target and whose
    first mediant is [0/0]: the candidate [-1/0] lies below the target and
    the upper bound is [1/0]. *)
Definition undefined_candidate_example : Args :=
  mkArgs (-1) 0 0 1 1 0 (pow2 (-1)) (pow2 (-10)) 2.

(** A call whose first mediant is [0/0]. *)
Definition cancelling_example : Args :=
  mkArgs 1 1 (-1) (-1) 1 1 (pow2 (-1)) (pow2 (-10)) 1.

(** The states of [scaled_example] at the outer tests that follow the first
    pass: with wrap-around they repeat with period six. *)
Definition scaled_orbit (k : nat) : state :=
  Nat.iter k (batch (mantissa scaled_example) (microIterations scaled_example))
    (init scaled_example).

Definition scaled_cycle : list state := map scaled_orbit [1; 2; 3; 4; 5; 6]%nat.

(** What the search keeps true as long as no sum leaves the range. *)
Definition search_invariant (s : state) : Prop :=
  consistent s /\ ints_in_range s /\ positive_denominators s.

(** ** Invariants of the search

    [cross] is the determinant of two integer vectors. *)
Definition cross (xa xb ya yb : Z) : Z := xa * yb - xb * ya.

(** What every state of a call with nonzero denominators and enclosing bounds
    satisfies while no sum leaves the range: the candidate is not [0/0], a
    zero candidate denominator comes with nonzero bound denominators, the
    bounds enclose the finite target. *)
Definition safe (m : double) (s : state) : Prop :=
  consistent s /\ ints_in_range s
  /\ (a s <> 0 \/ b s <> 0)
  /\ (b s = 0 -> lowerB s <> 0 /\ upperB s <> 0)
  /\ bracket m s = true /\ is_finite m = true.

(** After the first step the candidate is the mediant of the bounds, and the
    bounds are combinations, with natural coefficients, of the bounds [p], [q]
    that the first step left.  When [p], [q] are independent, [coeffs] are
    these coefficients times [det] and their sum [weight] grows with every
    step; when they are parallel, [phase] grows instead. *)
Section Potential.
Variables pa pb qa qb : Z.

Definition det : Z := cross pa pb qa qb.

Definition coeffs (s : state) : Z * Z * Z * Z :=
  (cross (lowerA s) (lowerB s) qa qb, cross pa pb (lowerA s) (lowerB s),
   cross (upperA s) (upperB s) qa qb, cross pa pb (upperA s) (upperB s)).

Definition weight (s : state) : Z :=
  let '(x, y, z, t) := coeffs s in Z.sgn det * (x + y + z + t).

Definition phase (s : state) : Z :=
  if Z.sgn (lowerB s) =? Z.sgn (upperB s)
  then 2 ^ 33 + Z.abs (lowerB s) + Z.abs (upperB s)
  else 2 ^ 32 - Z.abs (lowerB s) - Z.abs (upperB s).

Definition potential (s : state) : Z :=
  if det =? 0 then phase s else weight s.

Definition tracked (s : state) : Prop :=
  in_int pa /\ in_int pb /\ in_int qa /\ in_int qb
  /\ a s = lowerA s + upperA s /\ b s = lowerB s + upperB s
  /\ cross (lowerA s) (lowerB s) (upperA s) (upperB s) = det
  /\ (lowerA s <> 0 \/ lowerB s <> 0) /\ (upperA s <> 0 \/ upperB s <> 0)
  /\ (det <> 0 ->
      let '(x, y, z, t) := coeffs s in
      0 <= Z.sgn det * x /\ 0 <= Z.sgn det * y
      /\ 0 <= Z.sgn det * z /\ 0 <= Z.sgn det * t
      /\ 1 <= Z.sgn det * (x + y) /\ 1 <= Z.sgn det * (z + t)).
End Potential.

(** ** Further predicates *)

(** The candidate is the mediant of the two bounds. *)
Definition mediant_form (s : state) : Prop :=
  a s = lowerA s + upperA s /\ b s = lowerB s + upperB s.

(** The bounds are neighbours: [upperA * lowerB - lowerA * upperB = 1]. *)
Definition unimodular (s : state) : Prop :=
  upperA s * lowerB s - lowerA s * upperB s = 1.

(** The interval of [s] lies within that of [s0], in exact arithmetic. *)
Definition nested_in (s0 s : state) : Prop :=
  (lower_frac s0 <= lower_frac s)%Q /\ (upper_frac s <= upper_frac s0)%Q.

(** The state at the outer test that follows [k] passes of [micro] steps. *)
Definition boundary (m : double) (micro : Z) (k : nat) (s : state) : state :=
  for_loop m (k * Z.to_nat micro) s.

(** A search for [5/16] from [1/2] between [0/1] and [1/1]. *)
Definition farey_example : Args :=
  mkArgs 1 2 0 1 1 1 (binary_normalize prec emax 5 (-4) false) (pow2 (-6)) 1.

(** * Lemmas *)

(** ** 32-bit integers *)

Lemma in_intb_spec (z : Z) : in_intb z = true <-> in_int z.
Proof.
  unfold in_intb, in_int. rewrite andb_true_iff, !Z.leb_le. tauto.
Qed.

Lemma wrap32_in_int (z : Z) : in_int (wrap32 z).
Proof.
  unfold in_int, wrap32, INT_MIN, INT_MAX.
  pose proof (Z.mod_pos_bound (z + 2 ^ 31) (2 ^ 32) ltac:(lia)). lia.
Qed.

Lemma wrap32_id (z : Z) : in_int z -> wrap32 z = z.
Proof.
  unfold in_int, wrap32, INT_MIN, INT_MAX. intros H.
  rewrite Z.mod_small; lia.
Qed.

Lemma add32_in_int (x y : Z) : in_int (add32 x y).
Proof. apply wrap32_in_int. Qed.

Lemma add32_exact (x y : Z) : in_int (x + y) -> add32 x y = x + y.
Proof. apply wrap32_id. Qed.

(** ** Shifting and rounding keep a mantissa non-negative *)

Lemma iter_pos_invariant {A : Type} (P : A -> Prop) (f : A -> A) :
  (forall x, P x -> P (f x)) ->
  forall (n : positive) (x : A), P x -> P (iter_pos f n x).
Proof.
  intros Hf. induction n as [n IH | n IH | ]; intros x Hx; simpl; auto.
Qed.

Lemma shr_1_nonneg (mrs : shr_record) : 0 <= shr_m mrs -> 0 <= shr_m (shr_1 mrs).
Proof.
  destruct mrs as [mm r s]. simpl.
  destruct mm as [ | [q | q | ] | [q | q | ] ]; simpl; lia.
Qed.

Lemma shr_nonneg (mrs : shr_record) (e n : Z) :
  0 <= shr_m mrs -> 0 <= shr_m (fst (shr mrs e n)).
Proof.
  intros H. unfold shr. destruct n as [ | n | n ]; simpl; auto.
  apply (iter_pos_invariant (fun x => 0 <= shr_m x)); auto using shr_1_nonneg.
Qed.

Lemma shr_m_of_loc (mm : Z) (l : location) : shr_m (shr_record_of_loc mm l) = mm.
Proof. destruct l as [ | [ | | ] ]; reflexivity. Qed.

Lemma shr_fexp_nonneg (mm e : Z) (l : location) :
  0 <= mm -> 0 <= shr_m (fst (shr_fexp prec emax mm e l)).
Proof.
  intros H. unfold shr_fexp. apply shr_nonneg. now rewrite shr_m_of_loc.
Qed.

Lemma round_nearest_even_nonneg (mm : Z) (l : location) :
  0 <= mm -> 0 <= round_nearest_even mm l.
Proof.
  intros H. unfold round_nearest_even.
  destruct l as [ | [ | | ] ]; try destruct (Z.even mm); lia.
Qed.

Lemma binary_round_aux_not_nan (sx : bool) (mx ex : Z) (lx : location) :
  0 <= mx -> is_nan (binary_round_aux prec emax sx mx ex lx) = false.
Proof.
  intros H. unfold binary_round_aux.
  pose proof (shr_fexp_nonneg mx ex lx H) as H1.
  destruct (shr_fexp prec emax mx ex lx) as [mrs' e']. simpl in H1.
  pose proof (shr_fexp_nonneg _ e' loc_Exact
                (round_nearest_even_nonneg _ (loc_of_shr_record mrs') H1)) as H2.
  destruct (shr_fexp prec emax _ e' loc_Exact) as [mrs'' e'']. simpl in H2.
  destruct (shr_m mrs'') as [ | q | q ]; try reflexivity; try lia.
  now destruct (e'' <=? emax - prec).
Qed.

Lemma binary_normalize_not_nan (mz e : Z) (sz : bool) :
  is_nan (binary_normalize prec emax mz e sz) = false.
Proof.
  unfold binary_normalize, binary_round.
  destruct mz as [ | q | q ]; try reflexivity;
    destruct (shl_align q e _) as [mz ez]; apply binary_round_aux_not_nan; lia.
Qed.

(** ** Binary digits of a mantissa *)

Lemma digits2_pos_bounds (q : positive) :
  2 ^ (Zpos (digits2_pos q) - 1) <= Zpos q < 2 ^ Zpos (digits2_pos q).
Proof.
  induction q as [q IH | q IH | ]; simpl digits2_pos.
  - rewrite Pos2Z.inj_succ, (Pos2Z.inj_xI q).
    replace (Z.succ (Zpos (digits2_pos q)) - 1) with (Z.succ (Zpos (digits2_pos q) - 1)) by lia.
    rewrite !Z.pow_succ_r by lia.
    set (u := 2 ^ (_ - 1)) in *. set (v := 2 ^ Zpos (digits2_pos q)) in *.
    clearbody u v. lia.
  - rewrite Pos2Z.inj_succ, (Pos2Z.inj_xO q).
    replace (Z.succ (Zpos (digits2_pos q)) - 1) with (Z.succ (Zpos (digits2_pos q) - 1)) by lia.
    rewrite !Z.pow_succ_r by lia.
    set (u := 2 ^ (_ - 1)) in *. set (v := 2 ^ Zpos (digits2_pos q)) in *.
    clearbody u v. lia.
  - simpl. lia.
Qed.

Lemma Zdigits2_le (mm k : Z) : 0 <= k -> 0 <= mm < 2 ^ k -> Zdigits2 mm <= k.
Proof.
  intros Hk [H0 H1]. destruct mm as [ | q | q ]; simpl; try lia.
  pose proof (digits2_pos_bounds q) as [Hlo _].
  destruct (Z_le_gt_dec (Zpos (digits2_pos q)) k) as [ | Hgt]; trivial.
  assert (2 ^ k <= 2 ^ (Zpos (digits2_pos q) - 1)) by (apply Z.pow_le_mono_r; lia).
  lia.
Qed.

Lemma digits2_pos_iter_xO (q n : positive) :
  Zpos (digits2_pos (Pos.iter xO q n)) = Zpos (digits2_pos q) + Zpos n.
Proof.
  induction n as [ | n IH] using Pos.peano_ind.
  - simpl. lia.
  - rewrite Pos.iter_succ. simpl digits2_pos. rewrite Pos2Z.inj_succ, IH. lia.
Qed.

(** ** Conversion of an [int] *)

Lemma binary_round_aux_canonical (s : bool) (mz : positive) (ez : Z) :
  Zpos (digits2_pos mz) = prec -> -1074 <= ez <= 971 ->
  binary_round_aux prec emax s (Zpos mz) ez loc_Exact = S754_finite s mz ez.
Proof.
  intros Hd He.
  assert (Hn : fexp prec emax (Zdigits2 (Zpos mz) + ez) - ez = 0).
  { simpl Zdigits2. rewrite Hd. unfold fexp, SpecFloat.emin, prec, emax. lia. }
  unfold binary_round_aux, shr_fexp. rewrite Hn.
  cbn [shr shr_record_of_loc shr_m loc_of_shr_record round_nearest_even].
  rewrite Hn. cbn [shr shr_record_of_loc shr_m].
  replace (ez <=? emax - prec) with true; trivial.
  symmetry. apply Z.leb_le. unfold emax, prec. lia.
Qed.

Lemma binary_round_small (s : bool) (q : positive) :
  Zpos (digits2_pos q) <= prec ->
  exists mz ez, binary_round prec emax s q 0 = S754_finite s mz ez
                /\ Zpos (digits2_pos mz) = prec /\ -52 <= ez <= 0.
Proof.
  intros Hd. unfold binary_round.
  assert (Hf : fexp prec emax (Zpos (digits2_pos q) + 0) = Zpos (digits2_pos q) - prec).
  { unfold fexp, SpecFloat.emin, prec, emax in *. lia. }
  rewrite Hf. unfold shl_align.
  destruct (Zpos (digits2_pos q) - prec - 0) as [ | k | k ] eqn:Hk;
    unfold prec in *; try lia.
  - exists q, 0. split; [ | split; [lia | lia] ].
    apply binary_round_aux_canonical; unfold prec; lia.
  - exists (Pos.iter xO q k), (Zpos (digits2_pos q) - 53).
    assert (Hdig : Zpos (digits2_pos (Pos.iter xO q k)) = 53)
      by (rewrite digits2_pos_iter_xO; lia).
    split; [ | split; [exact Hdig | lia] ].
    apply binary_round_aux_canonical; unfold prec; lia.
Qed.

Lemma double_of_int_zero : double_of_int 0 = S754_zero false.
Proof. reflexivity. Qed.

Lemma double_of_int_nonzero (z : Z) :
  in_int z -> z <> 0 ->
  exists s mz ez, double_of_int z = S754_finite s mz ez
                  /\ Zpos (digits2_pos mz) = prec /\ -52 <= ez <= 0.
Proof.
  unfold in_int, INT_MIN, INT_MAX. intros Hr Hz.
  destruct z as [ | q | q ]; try contradiction; unfold double_of_int, binary_normalize.
  - exists false. apply binary_round_small.
    apply (Zdigits2_le (Zpos q) 53); lia.
  - exists true. apply binary_round_small.
    apply (Zdigits2_le (Zpos q) 53); lia.
Qed.

(** ** A rounded result overflows only from a large exponent *)

Lemma shr_1_le (mrs : shr_record) (B : Z) :
  0 <= shr_m mrs <= B -> 0 <= shr_m (shr_1 mrs) <= B.
Proof.
  destruct mrs as [mm r s]. simpl.
  destruct mm as [ | [q | q | ] | [q | q | ] ]; simpl; lia.
Qed.

Lemma shr_fexp_bounds (mm e k : Z) (l : location) :
  0 <= k -> 0 <= mm < 2 ^ k ->
  0 <= shr_m (fst (shr_fexp prec emax mm e l)) <= mm
  /\ snd (shr_fexp prec emax mm e l) <= Z.max e (Z.max (k + e - 53) (-1074)).
Proof.
  intros Hk Hm. unfold shr_fexp, shr.
  pose proof (Zdigits2_le mm k Hk Hm) as Hd.
  destruct (fexp prec emax (Zdigits2 mm + e) - e) as [ | n | n ] eqn:Hn;
    cbn [fst snd]; rewrite ?shr_m_of_loc; try lia.
  split.
  - apply (iter_pos_invariant (fun x => 0 <= shr_m x <= mm)).
    + intros x. apply shr_1_le.
    + rewrite shr_m_of_loc. lia.
  - unfold fexp, SpecFloat.emin, prec, emax in Hn. lia.
Qed.

Lemma round_nearest_even_le (mm : Z) (l : location) :
  mm <= round_nearest_even mm l <= mm + 1.
Proof.
  unfold round_nearest_even.
  destruct l as [ | [ | | ] ]; try destruct (Z.even mm); lia.
Qed.

Lemma binary_round_aux_not_inf (sx : bool) (mx ex k : Z) (lx : location) :
  0 <= k -> 0 <= mx < 2 ^ k -> ex + 2 * k <= 970 -> 2 * k <= 2044 ->
  is_inf (binary_round_aux prec emax sx mx ex lx) = false.
Proof.
  intros Hk Hm He Hk2. unfold binary_round_aux.
  pose proof (shr_fexp_bounds mx ex k lx Hk Hm) as [H1 E1].
  destruct (shr_fexp prec emax mx ex lx) as [mrs' e']. cbn [fst snd] in H1, E1.
  pose proof (round_nearest_even_le (shr_m mrs') (loc_of_shr_record mrs')) as Hr.
  assert (Hm1 : 0 <= round_nearest_even (shr_m mrs') (loc_of_shr_record mrs') < 2 ^ (k + 1)).
  { rewrite Z.pow_add_r, Z.pow_1_r by lia. lia. }
  pose proof (shr_fexp_bounds _ e' (k + 1) loc_Exact ltac:(lia) Hm1) as [H2 E2].
  destruct (shr_fexp prec emax _ e' loc_Exact) as [mrs'' e'']. cbn [fst snd] in H2, E2.
  destruct (shr_m mrs'') as [ | q | q ]; try reflexivity.
  replace (e'' <=? emax - prec) with true; trivial.
  symmetry. apply Z.leb_le. unfold emax, prec. lia.
Qed.

(** ** The ratio of two [int]s *)

Lemma SFdiv_by_zero (x : double) (s : bool) :
  is_nan (fdiv x (S754_zero s)) = true \/ is_inf (fdiv x (S754_zero s)) = true.
Proof. destruct x; simpl; auto. Qed.

Lemma SFdiv_finite_regular (sx sy : bool) (mx my : positive) (ex ey : Z) :
  Zpos (digits2_pos mx) = prec -> Zpos (digits2_pos my) = prec ->
  -52 <= ex <= 0 -> -52 <= ey <= 0 ->
  is_nan (fdiv (S754_finite sx mx ex) (S754_finite sy my ey)) = false
  /\ is_inf (fdiv (S754_finite sx mx ex) (S754_finite sy my ey)) = false.
Proof.
  intros Hdx Hdy Hex Hey. unfold fdiv, SFdiv, SFdiv_core_binary.
  cbn [Zdigits2]. rewrite Hdx, Hdy.
  assert (He : Z.min (fexp prec emax (prec + ex - (prec + ey))) (ex - ey) = ex - ey - 53).
  { unfold fexp, SpecFloat.emin, prec, emax. lia. }
  rewrite He. replace (ex - ey - (ex - ey - 53)) with 53 by lia.
  rewrite Z.shiftl_mul_pow2 by lia.
  pose proof (digits2_pos_bounds mx) as Bx. rewrite Hdx in Bx. unfold prec in Bx.
  pose proof (Z_div_mod (Zpos mx * 2 ^ 53) (Zpos my) ltac:(lia)) as Hdiv.
  destruct (Z.div_eucl (Zpos mx * 2 ^ 53) (Zpos my)) as [q r].
  assert (Hq : 0 <= q < 2 ^ 106).
  { change (2 ^ 106) with (2 ^ 53 * 2 ^ 53). nia. }
  split.
  - apply binary_round_aux_not_nan. lia.
  - apply (binary_round_aux_not_inf _ q _ 106); lia.
Qed.

Lemma ratio_regular (x y : Z) :
  in_int x -> in_int y -> y <> 0 ->
  is_nan (ratio x y) = false /\ is_inf (ratio x y) = false.
Proof.
  intros Hx Hy Hy0. unfold ratio.
  destruct (double_of_int_nonzero y Hy Hy0) as (sy & my & ey & -> & Hdy & Hey).
  destruct (Z.eq_dec x 0) as [-> | Hx0].
  - rewrite double_of_int_zero. simpl. auto.
  - destruct (double_of_int_nonzero x Hx Hx0) as (sx & mx & ex & -> & Hdx & Hex).
    now apply SFdiv_finite_regular.
Qed.

Lemma ratio_zero_denominator (x : Z) :
  is_nan (ratio x 0) = true \/ is_inf (ratio x 0) = true.
Proof. unfold ratio. rewrite double_of_int_zero. apply SFdiv_by_zero. Qed.

(** ** Comparisons *)

Lemma flt_not_fge (x y : double) : flt x y = true -> fge x y = false.
Proof.
  unfold flt, SFltb, fge. destruct (SFcompare x y) as [[ | | ] | ]; congruence.
Qed.

Lemma SFcompare_defined (x y : double) :
  is_nan x = false -> is_nan y = false -> exists c, SFcompare x y = Some c.
Proof.
  destruct x, y; simpl; intros; try discriminate; eauto.
Qed.

Lemma not_fge_flt (x y : double) :
  is_nan x = false -> is_nan y = false -> fge x y = false -> flt x y = true.
Proof.
  intros Hx Hy. destruct (SFcompare_defined x y Hx Hy) as [c Hc].
  unfold fge, flt, SFltb. rewrite Hc. destruct c; congruence.
Qed.

Lemma SFcompare_swap (x y : double) (c : comparison) :
  SFcompare x y = Some c -> SFcompare y x = Some (CompOpp c).
Proof.
  destruct x as [sx | sx | | sx mx ex], y as [sy | sy | | sy my ey]; simpl;
    try discriminate;
    try (destruct sx; intros [= <-]; reflexivity);
    try (destruct sy; intros [= <-]; reflexivity);
    try (intros [= <-]; reflexivity).
  - destruct sx, sy; intros [= <-]; reflexivity.
  - intros [= <-]. f_equal.
    assert (Hm : Pos.compare_cont Eq my mx = CompOpp (Pos.compare_cont Eq mx my))
      by (rewrite (Pos.compare_cont_antisym mx my Eq); reflexivity).
    rewrite (Z.compare_antisym ex ey), Hm.
    destruct sx, sy; try reflexivity;
      destruct (ex ?= ey); simpl; try reflexivity;
      destruct (Pos.compare_cont Eq mx my); reflexivity.
Qed.

Lemma not_flt_not_feq_gt (x y : double) :
  is_nan x = false -> is_nan y = false ->
  flt x y = false -> feq x y = false -> flt y x = true.
Proof.
  intros Hx Hy. destruct (SFcompare_defined x y Hx Hy) as [c Hc].
  unfold flt, feq, SFltb, SFeqb. rewrite (SFcompare_swap x y c Hc), Hc.
  destruct c; simpl; congruence.
Qed.

Lemma fle_not_nan (x y : double) :
  fle x y = true -> is_nan x = false /\ is_nan y = false.
Proof. destruct x, y; simpl; try discriminate; auto. Qed.

Lemma flt_not_nan (x y : double) :
  flt x y = true -> is_nan x = false /\ is_nan y = false.
Proof. destruct x, y; simpl; try discriminate; auto. Qed.

Lemma flt_fle (x y : double) : flt x y = true -> fle x y = true.
Proof.
  unfold flt, fle, SFltb, SFleb. destruct (SFcompare x y) as [[ | | ] | ]; congruence.
Qed.

(** Two doubles that compare equal differ by a zero, or by a NaN when both
    are the same infinity. *)
Lemma feq_difference (x y : double) :
  feq x y = true ->
  fabs (fsub x y) = S754_zero false \/ is_nan (fabs (fsub x y)) = true.
Proof.
  unfold feq, SFeqb.
  destruct x as [sx | sx | | sx mx ex], y as [sy | sy | | sy my ey]; simpl;
    try discriminate;
    try (destruct sx; discriminate); try (destruct sy; discriminate).
  - destruct sx, sy; simpl; auto.
  - destruct sx, sy; simpl; auto; discriminate.
  - intros H. left.
    assert (Heq : sx = sy /\ ex = ey /\ mx = my).
    { destruct sx, sy; try discriminate;
        destruct (ex ?= ey) eqn:He; try discriminate;
        apply Z.compare_eq in He;
        destruct (Pos.compare_cont Eq mx my) eqn:Hm; try discriminate;
        apply Pos.compare_eq in Hm; auto. }
    destruct Heq as (-> & -> & ->).
    unfold shl_align. rewrite Z.min_id, Z.sub_diag. cbn [fst].
    rewrite ?Z.sub_diag. reflexivity.
Qed.

Lemma positive_not_le_zero (p : double) :
  flt fzero p = true -> fge (S754_zero false) p = false.
Proof.
  destruct p as [s | s | | s q e]; simpl; try discriminate; destruct s; simpl;
    try discriminate; reflexivity.
Qed.

Lemma fge_nan_l (x p : double) : is_nan x = true -> fge x p = false.
Proof. destruct x; try discriminate. reflexivity. Qed.

(** An exact hit ends the search whenever the precision is positive. *)
Lemma exact_hit_stops (m p : double) (s : state) :
  flt fzero p = true -> feq (ab s) m = true -> loop_cond m p s = false.
Proof.
  intros Hp He. unfold loop_cond.
  destruct (feq_difference _ _ He) as [-> | Hn].
  - now apply positive_not_le_zero.
  - now apply fge_nan_l.
Qed.

(** ** Signs, zero denominators, finite targets *)

Lemma binary_round_aux_sign (s : bool) (mx ex : Z) (l : location) :
  binary_round_aux prec emax (negb s) mx ex l
  = SFopp (binary_round_aux prec emax s mx ex l).
Proof.
  unfold binary_round_aux.
  destruct (shr_fexp prec emax mx ex l) as [mrs' e'].
  destruct (shr_fexp prec emax _ e' loc_Exact) as [mrs'' e''].
  destruct (shr_m mrs'') as [ | q | q ]; try reflexivity.
  now destruct (e'' <=? emax - prec).
Qed.

Lemma double_of_int_opp (z : Z) :
  z <> 0 -> double_of_int (- z) = SFopp (double_of_int z).
Proof.
  intros Hz. destruct z as [ | q | q ]; try contradiction;
    unfold double_of_int, binary_normalize, binary_round; cbn [Z.opp];
    destruct (shl_align q 0 _) as [mz ez].
  - apply (binary_round_aux_sign false).
  - change true with (negb false). rewrite binary_round_aux_sign.
    now destruct (binary_round_aux prec emax false (Zpos mz) ez loc_Exact) as [[]|[]| |[]].
Qed.

Lemma fdiv_opp_opp (sx sy : bool) (mx my : positive) (ex ey : Z) :
  fdiv (SFopp (S754_finite sx mx ex)) (SFopp (S754_finite sy my ey))
  = fdiv (S754_finite sx mx ex) (S754_finite sy my ey).
Proof.
  unfold fdiv. cbn [SFopp SFdiv].
  destruct (SFdiv_core_binary prec emax _ ex _ ey) as [[mz ez] lz].
  now destruct sx, sy.
Qed.

(** Negating both integers changes at most the sign of a zero quotient,
    which no comparison sees. *)
Lemma ratio_opp_compare (x y : Z) (m : double) :
  in_int x -> in_int y -> y <> 0 ->
  SFcompare (ratio (- x) (- y)) m = SFcompare (ratio x y) m
  /\ SFcompare m (ratio (- x) (- y)) = SFcompare m (ratio x y).
Proof.
  intros Hx Hy Hy0. unfold ratio. rewrite (double_of_int_opp y Hy0).
  destruct (double_of_int_nonzero y Hy Hy0) as (sy & my & ey & -> & _).
  destruct (Z.eq_dec x 0) as [-> | Hx0].
  - cbn [Z.opp]. rewrite double_of_int_zero. cbn.
    destruct sy, m as [ | | | sm mm em]; cbn; auto.
  - rewrite (double_of_int_opp x Hx0).
    destruct (double_of_int_nonzero x Hx Hx0) as (sx & mx & ex & -> & _).
    rewrite fdiv_opp_opp. auto.
Qed.

Lemma ratio_not_nan (x y : Z) :
  in_int x -> in_int y -> x <> 0 \/ y <> 0 -> is_nan (ratio x y) = false.
Proof.
  intros Hx Hy H. destruct (Z.eq_dec y 0) as [-> | Hy0].
  - destruct H as [Hx0 | ]; try contradiction.
    unfold ratio. rewrite double_of_int_zero.
    destruct (double_of_int_nonzero x Hx Hx0) as (sx & mx & ex & -> & _).
    reflexivity.
  - now apply ratio_regular.
Qed.

Lemma ratio_infinite (x : Z) :
  in_int x -> x <> 0 -> is_inf (ratio x 0) = true.
Proof.
  intros Hx Hx0. unfold ratio. rewrite double_of_int_zero.
  destruct (double_of_int_nonzero x Hx Hx0) as (sx & mx & ex & -> & _).
  reflexivity.
Qed.

Lemma flt_fle_absurd (x y : double) : flt x y = true -> fle y x = true -> False.
Proof.
  unfold flt, fle, SFltb, SFleb.
  destruct (SFcompare x y) as [c | ] eqn:Hc; try discriminate.
  rewrite (SFcompare_swap x y c Hc). destruct c; simpl; discriminate.
Qed.

Lemma between_regular_finite (x y m : double) :
  is_nan x = false -> is_inf x = false -> is_nan y = false -> is_inf y = false ->
  fle x m = true -> fle m y = true -> is_finite m = true.
Proof.
  destruct x as [sx | sx | | sx mx ex], y as [sy | sy | | sy my ey],
    m as [sm | sm | | sm mm em]; try discriminate; try reflexivity;
    intros _ _ _ _; cbn; try destruct sm; try destruct sx; try destruct sy;
    discriminate.
Qed.

(** ** The loops *)

Lemma for_loop_exact_hit (m : double) (n : nat) (s : state) :
  feq (ab s) m = true -> for_loop m n s = s.
Proof. intros H. destruct n; simpl; trivial. now rewrite H. Qed.

Lemma while_loop_exit (m p : double) (micro : Z) (fuel : nat) (s : state) :
  loop_cond m p s = false -> while_loop m p micro (S fuel) s = Some s.
Proof. intros H. simpl. now rewrite H. Qed.

Lemma while_loop_more_fuel (m p : double) (micro : Z) (n k : nat) (s r : state) :
  while_loop m p micro n s = Some r -> while_loop m p micro (n + k) s = Some r.
Proof.
  revert s. induction n as [ | n IH]; intros s; simpl; try discriminate.
  destruct (loop_cond m p s); auto.
Qed.

Lemma while_loop_result_exits (m p : double) (micro : Z) (n : nat) (s r : state) :
  while_loop m p micro n s = Some r -> loop_cond m p r = false.
Proof.
  revert s. induction n as [ | n IH]; intros s; simpl; try discriminate.
  destruct (loop_cond m p s) eqn:Hc; eauto. intros [= <-]. exact Hc.
Qed.

Lemma mediant_step_consistent (m : double) (s : state) : consistent (mediant_step m s).
Proof. unfold mediant_step, consistent. destruct (flt (ab s) m); reflexivity. Qed.

Lemma mediant_step_in_range (m : double) (s : state) :
  ints_in_range s -> ints_in_range (mediant_step m s).
Proof.
  unfold ints_in_range, mediant_step. intros (Ha & Hb & Hla & Hlb & Hua & Hub).
  destruct (flt (ab s) m); cbn; auto 10 using add32_in_int.
Qed.

Lemma init_consistent (g : Args) : consistent (init g).
Proof. reflexivity. Qed.

Lemma for_loop_consistent (m : double) (n : nat) (s : state) :
  consistent s -> consistent (for_loop m n s).
Proof.
  revert s. induction n as [ | n IH]; intros s Hs; simpl; trivial.
  destruct (feq (ab s) m); trivial. apply IH, mediant_step_consistent.
Qed.

Lemma while_loop_consistent (m p : double) (micro : Z) (n : nat) (s r : state) :
  consistent s -> while_loop m p micro n s = Some r -> consistent r.
Proof.
  revert s. induction n as [ | n IH]; intros s Hs; simpl; try discriminate.
  destruct (loop_cond m p s).
  - apply IH. now apply for_loop_consistent.
  - now intros [= <-].
Qed.

Lemma mediant_step_low (m : double) (s : state) :
  flt (ab s) m = true ->
  mediant_step m s =
  mkState (add32 (a s) (upperA s)) (add32 (b s) (upperB s)) (a s) (b s)
          (upperA s) (upperB s) (ratio (add32 (a s) (upperA s)) (add32 (b s) (upperB s))).
Proof. intros H. unfold mediant_step. now rewrite H. Qed.

Lemma mediant_step_high (m : double) (s : state) :
  flt (ab s) m = false ->
  mediant_step m s =
  mkState (add32 (a s) (lowerA s)) (add32 (b s) (lowerB s)) (lowerA s) (lowerB s)
          (a s) (b s) (ratio (add32 (a s) (lowerA s)) (add32 (b s) (lowerB s))).
Proof. intros H. unfold mediant_step. now rewrite H. Qed.

Lemma no_overflow_low (m : double) (s : state) :
  flt (ab s) m = true -> step_overflows m s = false ->
  add32 (a s) (upperA s) = a s + upperA s /\ add32 (b s) (upperB s) = b s + upperB s.
Proof.
  unfold step_overflows. intros -> H.
  apply negb_false_iff, andb_true_iff in H. destruct H as [Ha Hb].
  apply in_intb_spec in Ha, Hb. split; now apply add32_exact.
Qed.

Lemma no_overflow_high (m : double) (s : state) :
  flt (ab s) m = false -> step_overflows m s = false ->
  add32 (a s) (lowerA s) = a s + lowerA s /\ add32 (b s) (lowerB s) = b s + lowerB s.
Proof.
  unfold step_overflows. intros -> H.
  apply negb_false_iff, andb_true_iff in H. destruct H as [Ha Hb].
  apply in_intb_spec in Ha, Hb. split; now apply add32_exact.
Qed.

Lemma iterate_more_fuel (n k : nat) (g : Args) (r : Z * Z) :
  iterateRationalApproximation n g = Some r ->
  iterateRationalApproximation (n + k) g = Some r.
Proof.
  unfold iterateRationalApproximation.
  destruct (while_loop _ _ _ n (init g)) as [s | ] eqn:H; try discriminate.
  now rewrite (while_loop_more_fuel _ _ _ n k _ _ H).
Qed.

(** * The sign function *)

Lemma intSign_spec (num : Z) (zero : option Z) :
  in_int num ->
  intSign num zero = sign_spec num (match zero with Some v => v | None => 0 end).
Proof.
  unfold in_int, INT_MIN, INT_MAX. intros Hr.
  unfold intSign, sign_spec. rewrite Z.land_diag.
  destruct (num =? 0) eqn:H0; trivial.
  apply Z.eqb_neq in H0. rewrite Z.shiftr_div_pow2 by lia.
  destruct (0 <? num) eqn:Hs.
  - apply Z.ltb_lt in Hs. rewrite Z.div_small by lia. reflexivity.
  - apply Z.ltb_ge in Hs.
    replace (num / 2 ^ 31) with (-1); trivial.
    apply (Z.div_unique num (2 ^ 31) (-1) (num + 2 ^ 31)); lia.
Qed.

Lemma parse_int_in_range (z : Z) : in_int z -> parse_int z = Some z.
Proof.
  intros H. unfold parse_int. now rewrite (proj2 (in_intb_spec z) H).
Qed.

Lemma parse_int_out_of_range (z : Z) : ~ in_int z -> parse_int z = None.
Proof.
  intros H. unfold parse_int. destruct (in_intb z) eqn:E; trivial.
  apply in_intb_spec in E. contradiction.
Qed.

(** C6, as the code has it: for every 32-bit [num] and every 32-bit [zero],
    [intSign] returns [zero] when [num = 0], [1] when [num > 0] and [-1] when
    [num < 0], the minimum [-2147483648] included; an omitted [zero] counts
    as [0]; a [zero] that does not fit an [int] is rejected by the parse. *)
Theorem intSign_correct (num zero : Z) :
  in_int num ->
  (in_int zero -> py_intSign num (Some zero) = Some (sign_spec num zero))
  /\ (~ in_int zero -> py_intSign num (Some zero) = None)
  /\ py_intSign num None = Some (sign_spec num 0)
  /\ (in_int zero -> py_intSign INT_MIN (Some zero) = Some (-1))
  /\ py_intSign INT_MIN None = Some (-1).
Proof.
  intros Hr. unfold py_intSign. rewrite (parse_int_in_range num Hr).
  assert (Hmin : in_int INT_MIN) by (unfold in_int, INT_MIN, INT_MAX; lia).
  rewrite (parse_int_in_range INT_MIN Hmin).
  split; [ | split; [ | split; [ | split]]].
  - intros Hz. rewrite (parse_int_in_range zero Hz). f_equal.
    now apply (intSign_spec num (Some zero)).
  - intros Hz. now rewrite (parse_int_out_of_range zero Hz).
  - f_equal. now apply (intSign_spec num None).
  - intros Hz. now rewrite (parse_int_in_range zero Hz).
  - reflexivity.
Qed.

Lemma intSign_correct_witness :
  in_int (-5) /\ in_int 7
  /\ py_intSign (-5) (Some 7) = Some (sign_spec (-5) 7)
  /\ py_intSign (-5) None = Some (sign_spec (-5) 0).
Proof.
  assert (H1 : in_int (-5)) by (unfold in_int, INT_MIN, INT_MAX; lia).
  assert (H2 : in_int 7) by (unfold in_int, INT_MIN, INT_MAX; lia).
  split; [exact H1 | split; [exact H2 | ]].
  destruct (intSign_correct (-5) 7 H1) as (H3 & _ & H4 & _).
  split; [exact (H3 H2) | exact H4].
Defined.

(** C6 as stated fails for a [zero] that is an integer but not an [int]:
    [intSign(0, zero=2^40)] should return [2^40]; the parse of [zero] fails
    and the call returns [NULL] with OverflowError. *)
Lemma intSign_rejects_wide_zero :
  in_int 0
  /\ sign_spec 0 (2 ^ 40) = 2 ^ 40
  /\ py_intSign 0 (Some (2 ^ 40)) = None.
Proof.
  split; [unfold in_int, INT_MIN, INT_MAX; lia | ]. split; reflexivity.
Qed.

Example intSign_examples :
  py_intSign 5 None = Some 1 /\ py_intSign (-5) None = Some (-1)
  /\ py_intSign 0 None = Some 0 /\ py_intSign 0 (Some (-1)) = Some (-1)
  /\ py_intSign (-2147483648) None = Some (-1)
  /\ py_intSign (2 ^ 31) None = None.
Proof. repeat split. Qed.

(** * The mediant step *)

(** C3: an iteration of the inner loop that the exact-hit test does not stop
    performs the specified transition: a candidate whose ratio is below the
    target becomes the lower bound and the upper bound is added to it;
    otherwise the candidate becomes the upper bound and the lower bound is
    added; the ratio is then recomputed from the new candidate, and the loop
    goes on from that state.  The complementary branch is the branch "ratio
    greater than mantissa" whenever the two compare, and [+=] is the exact
    sum when it fits an [int]. *)
Theorem mediant_step_transition (m : double) (n : nat) (s : state) :
  feq (ab s) m = false ->
  (flt (ab s) m = true ->
   for_loop m 1 s
   = mkState (add32 (a s) (upperA s)) (add32 (b s) (upperB s))
       (a s) (b s) (upperA s) (upperB s)
       (ratio (add32 (a s) (upperA s)) (add32 (b s) (upperB s)))
   /\ for_loop m (S n) s
      = for_loop m n
          (mkState (add32 (a s) (upperA s)) (add32 (b s) (upperB s))
             (a s) (b s) (upperA s) (upperB s)
             (ratio (add32 (a s) (upperA s)) (add32 (b s) (upperB s))))
   /\ (step_overflows m s = false ->
       a (for_loop m 1 s) = a s + upperA s /\ b (for_loop m 1 s) = b s + upperB s))
  /\ (flt (ab s) m = false ->
      for_loop m 1 s
      = mkState (add32 (a s) (lowerA s)) (add32 (b s) (lowerB s))
          (lowerA s) (lowerB s) (a s) (b s)
          (ratio (add32 (a s) (lowerA s)) (add32 (b s) (lowerB s)))
      /\ for_loop m (S n) s
         = for_loop m n
             (mkState (add32 (a s) (lowerA s)) (add32 (b s) (lowerB s))
                (lowerA s) (lowerB s) (a s) (b s)
                (ratio (add32 (a s) (lowerA s)) (add32 (b s) (lowerB s))))
      /\ (step_overflows m s = false ->
          a (for_loop m 1 s) = a s + lowerA s /\ b (for_loop m 1 s) = b s + lowerB s)
      /\ (is_nan (ab s) = false -> is_nan m = false -> flt m (ab s) = true)).
Proof.
  intros He. cbn [for_loop]. rewrite He. split; intros E.
  - rewrite (mediant_step_low m s E).
    split; [reflexivity | split; [reflexivity | ]].
    intros Ho. cbn [a b]. exact (no_overflow_low m s E Ho).
  - rewrite (mediant_step_high m s E).
    split; [reflexivity | split; [reflexivity | split]].
    + intros Ho. cbn [a b]. exact (no_overflow_high m s E Ho).
    + intros Hx Hm. now apply not_flt_not_feq_gt.
Qed.

Lemma mediant_step_transition_witness :
  feq (ab (init spec_example)) (mantissa spec_example) = false
  /\ flt (ab (init spec_example)) (mantissa spec_example) = true
  /\ for_loop (mantissa spec_example) 1 (init spec_example)
     = mkState 1 2 0 1 1 1 (ratio 1 2).
Proof.
  assert (He : feq (ab (init spec_example)) (mantissa spec_example) = false)
    by reflexivity.
  assert (El : flt (ab (init spec_example)) (mantissa spec_example) = true)
    by reflexivity.
  split; [exact He | split; [exact El | ]].
  exact (proj1 (proj1 (mediant_step_transition (mantissa spec_example) 0
                         (init spec_example) He) El)).
Defined.

(** * Immediate returns *)

(** C7: with a positive precision, a candidate whose ratio compares equal to
    the target is returned unchanged: the inner loop stops at once and the
    outer test fails. *)
Theorem exact_candidate_returned (g : Args) (fuel n : nat) :
  flt fzero (precision g) = true ->
  feq (ratio (arg_a g) (arg_b g)) (mantissa g) = true ->
  iterateRationalApproximation (S fuel) g = Some (arg_a g, arg_b g)
  /\ while_loop (mantissa g) (precision g) (microIterations g) (S fuel) (init g)
     = Some (init g)
  /\ for_loop (mantissa g) n (init g) = init g.
Proof.
  intros Hp He.
  assert (Hc : loop_cond (mantissa g) (precision g) (init g) = false)
    by now apply exact_hit_stops.
  unfold iterateRationalApproximation.
  rewrite (while_loop_exit _ _ _ _ _ Hc). repeat split.
  now apply for_loop_exact_hit.
Qed.

Lemma exact_candidate_returned_witness :
  iterateRationalApproximation 1 (mkArgs 1 2 0 1 1 1 (pow2 (-1)) (pow2 (-10)) 3)
  = Some (1, 2).
Proof.
  exact (proj1 (exact_candidate_returned
                  (mkArgs 1 2 0 1 1 1 (pow2 (-1)) (pow2 (-10)) 3) 0 0
                  eq_refl eq_refl)).
Defined.

(** C10: a candidate that is already within tolerance at entry, equal to the
    target or not, is returned unchanged and no mediant step is run. *)
Theorem tolerated_candidate_returned (g : Args) (fuel : nat) :
  within_tolerance (mantissa g) (precision g) (arg_a g) (arg_b g) = true ->
  iterateRationalApproximation (S fuel) g = Some (arg_a g, arg_b g)
  /\ while_loop (mantissa g) (precision g) (microIterations g) (S fuel) (init g)
     = Some (init g).
Proof.
  unfold within_tolerance. intros Ht.
  assert (Hc : loop_cond (mantissa g) (precision g) (init g) = false)
    by (apply flt_not_fge; exact Ht).
  unfold iterateRationalApproximation.
  rewrite (while_loop_exit _ _ _ _ _ Hc). split; reflexivity.
Qed.

Lemma tolerated_candidate_returned_witness :
  iterateRationalApproximation 1 (mkArgs 1023 2048 0 1 1 1 (pow2 (-1)) (pow2 (-10)) 3)
  = Some (1023, 2048).
Proof.
  exact (proj1 (tolerated_candidate_returned
                  (mkArgs 1023 2048 0 1 1 1 (pow2 (-1)) (pow2 (-10)) 3) 0 eq_refl)).
Defined.

(** * A batch of no steps *)

Lemma batch_nonpositive (m : double) (micro : Z) (s : state) :
  micro <= 0 -> batch m micro s = s.
Proof.
  intros H. unfold batch. replace (Z.to_nat micro) with O by lia. reflexivity.
Qed.

Lemma while_loop_stuck (m p : double) (micro : Z) (s : state) :
  loop_cond m p s = true -> batch m micro s = s ->
  forall fuel, while_loop m p micro fuel s = None.
Proof.
  intros Hc Hb. induction fuel as [ | fuel IH]; simpl; trivial.
  now rewrite Hc, Hb.
Qed.

(** C8: with [microIterations <= 0] and an entry state out of tolerance, a
    pass of the outer loop leaves every local unchanged and the call never
    returns, whatever the fuel. *)
Theorem nonpositive_micro_diverges (g : Args) :
  microIterations g <= 0 ->
  loop_cond (mantissa g) (precision g) (init g) = true ->
  batch (mantissa g) (microIterations g) (init g) = init g
  /\ forall fuel, iterateRationalApproximation fuel g = None.
Proof.
  intros Hm Hc.
  pose proof (batch_nonpositive (mantissa g) _ (init g) Hm) as Hb.
  split; trivial. intros fuel. unfold iterateRationalApproximation.
  now rewrite (while_loop_stuck _ _ _ _ Hc Hb).
Qed.

Lemma nonpositive_micro_diverges_witness :
  microIterations (mkArgs 0 1 0 1 1 1 (pow2 (-1)) (pow2 (-10)) 0) <= 0
  /\ iterateRationalApproximation 9 (mkArgs 0 1 0 1 1 1 (pow2 (-1)) (pow2 (-10)) 0)
     = None.
Proof.
  assert (H : microIterations (mkArgs 0 1 0 1 1 1 (pow2 (-1)) (pow2 (-10)) 0) <= 0)
    by (simpl; lia).
  split; [exact H | ].
  exact (proj2 (nonpositive_micro_diverges
                  (mkArgs 0 1 0 1 1 1 (pow2 (-1)) (pow2 (-10)) 0) H eq_refl) 9%nat).
Defined.

(** * Zero denominators *)

Lemma loop_cond_nan (m p : double) (s : state) :
  is_nan (ab s) = true -> loop_cond m p s = false.
Proof.
  unfold loop_cond. destruct (ab s); try discriminate. reflexivity.
Qed.

Lemma loop_cond_inf (m p : double) (s : state) :
  is_inf (ab s) = true -> is_finite m = true -> is_nan p = false ->
  loop_cond m p s = true.
Proof.
  unfold loop_cond. destruct (ab s) as [ | sx | | ]; try discriminate.
  destruct m as [sm | | | sm mm em]; try discriminate;
    destruct p as [sp | sp | | sp mp ep]; try discriminate; intros _ _ _;
    try destruct sp; reflexivity.
Qed.

(** C9: a zero among [b], [lowerB], [upperB] is not rejected: the parsed call
    never takes the error exit.  With [b = 0] the entry ratio is the raw
    quotient by a zero double, an infinity or a NaN, and it is this value
    that the loop test compares: a NaN ([a = 0]) makes the test false, so
    [(0, 0)] is returned at once, and an infinity keeps the search running
    for a finite target. *)
Theorem zero_denominator_not_rejected (g : Args) (fuel : nat) :
  arg_b g = 0 \/ arg_lowerB g = 0 \/ arg_upperB g = 0 ->
  py_iterateRationalApproximation fuel (Some g) <> Some PyNULL
  /\ (arg_b g = 0 ->
      ab (init g) = fdiv (double_of_int (arg_a g)) fzero
      /\ (is_nan (ab (init g)) = true \/ is_inf (ab (init g)) = true)
      /\ (arg_a g = 0 -> iterateRationalApproximation (S fuel) g = Some (0, 0))
      /\ (is_inf (ab (init g)) = true -> is_finite (mantissa g) = true ->
          is_nan (precision g) = false ->
          loop_cond (mantissa g) (precision g) (init g) = true)).
Proof.
  intros _. split.
  - unfold py_iterateRationalApproximation.
    destruct (iterateRationalApproximation fuel g) as [[x y] | ]; discriminate.
  - intros Hb. unfold init at 1 2 3. cbn [ab]. rewrite Hb. repeat split.
    + apply ratio_zero_denominator.
    + intros Ha. unfold iterateRationalApproximation.
      rewrite while_loop_exit.
      * unfold init. cbn [a b]. now rewrite Ha, Hb.
      * apply loop_cond_nan. unfold init. cbn [ab]. now rewrite Ha, Hb.
    + intros Hi Hm Hp. now apply loop_cond_inf.
Qed.

Lemma zero_denominator_not_rejected_witness :
  arg_b (mkArgs 0 0 0 1 1 1 (pow2 (-1)) (pow2 (-10)) 1) = 0
  /\ iterateRationalApproximation 1 (mkArgs 0 0 0 1 1 1 (pow2 (-1)) (pow2 (-10)) 1)
     = Some (0, 0).
Proof.
  split; [reflexivity | ].
  exact (proj1 (proj2 (proj2 (proj2 (zero_denominator_not_rejected
                  (mkArgs 0 0 0 1 1 1 (pow2 (-1)) (pow2 (-10)) 1) 0
                  (or_introl eq_refl)) eq_refl))) eq_refl).
Defined.

Example zero_denominator_runs :
  py_iterateRationalApproximation 3 (Some (mkArgs 0 0 0 1 1 1 (pow2 (-1)) (pow2 (-10)) 1))
  = Some (PyTuple 0 0)
  /\ ratio 1 0 = S754_infinity false
  /\ ratio (-1) 0 = S754_infinity true
  /\ ratio 0 0 = S754_nan.
Proof. repeat split. Qed.

(** * What a returned pair satisfies *)

Lemma for_loop_in_range (m : double) (n : nat) (s : state) :
  ints_in_range s -> ints_in_range (for_loop m n s).
Proof.
  revert s. induction n as [ | n IH]; intros s Hs; simpl; trivial.
  destruct (feq (ab s) m); trivial. apply IH, mediant_step_in_range, Hs.
Qed.

Lemma while_loop_in_range (m p : double) (micro : Z) (n : nat) (s r : state) :
  ints_in_range s -> while_loop m p micro n s = Some r -> ints_in_range r.
Proof.
  revert s. induction n as [ | n IH]; intros s Hs; simpl; try discriminate.
  destruct (loop_cond m p s).
  - apply IH. now apply for_loop_in_range.
  - now intros [= <-].
Qed.

Lemma fsub_not_nan (x y : double) :
  is_nan x = false -> is_inf x = false -> is_nan y = false ->
  is_nan (fsub x y) = false.
Proof.
  destruct x as [sx | sx | | sx mx ex], y as [sy | sy | | sy my ey];
    try discriminate; intros _ _ _; try reflexivity.
  - now destruct sx, sy.
  - apply binary_normalize_not_nan.
Qed.

Lemma fabs_nan (x : double) : is_nan (fabs x) = is_nan x.
Proof. now destruct x. Qed.

Lemma returned_state (fuel : nat) (g : Args) (x y : Z) :
  iterateRationalApproximation fuel g = Some (x, y) ->
  exists r, while_loop (mantissa g) (precision g) (microIterations g) fuel (init g)
            = Some r /\ a r = x /\ b r = y.
Proof.
  unfold iterateRationalApproximation.
  destruct (while_loop _ _ _ fuel (init g)) as [r | ]; try discriminate.
  intros [= <- <-]. eauto.
Qed.

(** C2, as the code has it: on a returned pair the loop test
    [fabs(a/b - mantissa) >= precision] is false; this is
    [|a/b - mantissa| < precision] as soon as no NaN is compared, which holds
    when [b <> 0] and neither target nor precision is a NaN. *)
Theorem returned_pair_fails_loop_test (fuel : nat) (g : Args) (x y : Z) :
  ints_in_range (init g) ->
  iterateRationalApproximation fuel g = Some (x, y) ->
  fge (fabs (fsub (ratio x y) (mantissa g))) (precision g) = false
  /\ (y <> 0 -> is_nan (mantissa g) = false -> is_nan (precision g) = false ->
      within_tolerance (mantissa g) (precision g) x y = true).
Proof.
  intros Hr H. destruct (returned_state _ _ _ _ H) as (r & Hw & <- & <-).
  pose proof (while_loop_result_exits _ _ _ _ _ _ Hw) as Hc.
  pose proof (while_loop_consistent _ _ _ _ _ _ (init_consistent g) Hw) as Hk.
  pose proof (while_loop_in_range _ _ _ _ _ _ Hr Hw) as (Ha & Hb & _).
  unfold loop_cond in Hc. rewrite Hk in Hc. split; trivial.
  intros Hy Hm Hp. unfold within_tolerance.
  destruct (ratio_regular (a r) (b r) Ha Hb Hy) as [Hn Hi].
  apply not_fge_flt; trivial.
  rewrite fabs_nan. now apply fsub_not_nan.
Qed.

Lemma returned_pair_fails_loop_test_witness :
  iterateRationalApproximation 5 spec_example = Some (1, 2)
  /\ within_tolerance (mantissa spec_example) (precision spec_example) 1 2 = true.
Proof.
  assert (Hr : ints_in_range (init spec_example))
    by (unfold ints_in_range, in_int, INT_MIN, INT_MAX; simpl; lia).
  assert (H : iterateRationalApproximation 5 spec_example = Some (1, 2))
    by reflexivity.
  split; [exact H | ].
  refine (proj2 (returned_pair_fails_loop_test 5 spec_example 1 2 Hr H) _ _ _);
    [lia | reflexivity | reflexivity].
Defined.

(** C2 as stated fails: this call has nonzero denominators, a finite target
    and a positive precision; its first mediant is [0/0], whose ratio is a
    NaN, so the loop test is false and [(0, 0)] is returned, and
    [|0/0 - 0.5| < precision] is false as well. *)
Lemma returned_pair_outside_tolerance :
  iterateRationalApproximation 2 cancelling_example = Some (0, 0)
  /\ within_tolerance (mantissa cancelling_example) (precision cancelling_example) 0 0
     = false.
Proof. split; reflexivity. Qed.

(** * The bracketing invariant *)

Lemma not_flt_fle (x y : double) :
  is_nan x = false -> is_nan y = false -> flt x y = false -> fle y x = true.
Proof.
  intros Hx Hy. destruct (SFcompare_defined x y Hx Hy) as [c Hc].
  unfold flt, fle, SFltb, SFleb. rewrite (SFcompare_swap x y c Hc), Hc.
  destruct c; simpl; congruence.
Qed.

(** The double inequalities alone are kept by any step whose cached ratio is
    not a NaN (the candidate is not [0/0]). *)
Lemma bracket_preserved_regular (m : double) (s : state) :
  is_nan (ab s) = false -> bracket m s = true ->
  consistent s -> bracket m (mediant_step m s) = true.
Proof.
  intros Hn Hbr Hk. unfold bracket in Hbr.
  apply andb_true_iff in Hbr. destruct Hbr as [Hl Hu]. unfold bracket.
  destruct (flt (ab s) m) eqn:E.
  - rewrite (mediant_step_low m s E). cbn [lowerA lowerB upperA upperB].
    rewrite <- Hk, Hu, andb_true_r. now apply flt_fle.
  - rewrite (mediant_step_high m s E). cbn [lowerA lowerB upperA upperB].
    rewrite Hl, <- Hk. cbn [andb].
    apply not_flt_fle; trivial. exact (proj2 (fle_not_nan _ _ Hl)).
Qed.

(** C4, as the code has it: [lowerA/lowerB <= mantissa <= upperA/upperB]
    (ratios evaluated as the code evaluates them) is preserved by every
    iteration of the inner loop from a state whose candidate is not [0/0].
    Positive denominators of the two bounds are kept when the candidate's
    denominator is positive, and only then if the iteration takes a step,
    since the candidate becomes a bound; the new candidate's denominator is
    positive when its sum stays in range.  The first two hypotheses hold at
    every state of a run ([init_consistent], [for_loop_consistent],
    [for_loop_in_range]). *)
Theorem bracket_preserved (m : double) (s : state) :
  consistent s -> ints_in_range s -> a s <> 0 \/ b s <> 0 ->
  bracket m s = true ->
  bracket m (for_loop m 1 s) = true
  /\ (0 < lowerB s -> 0 < upperB s ->
      (0 < b s -> 0 < lowerB (for_loop m 1 s) /\ 0 < upperB (for_loop m 1 s))
      /\ (feq (ab s) m = false ->
          0 < lowerB (for_loop m 1 s) /\ 0 < upperB (for_loop m 1 s) -> 0 < b s)
      /\ (0 < b s -> step_overflows m s = false -> 0 < b (for_loop m 1 s))).
Proof.
  intros Hk (Ha & Hb & _) Hnz Hbr.
  assert (Hn : is_nan (ab s) = false).
  { rewrite Hk. now apply ratio_not_nan. }
  cbn [for_loop]. destruct (feq (ab s) m) eqn:He.
  - split; [exact Hbr | ]. intros Hpl Hpu.
    split; [intros _; split; assumption | ].
    split; [discriminate | intros Hpb _; exact Hpb].
  - split; [now apply bracket_preserved_regular | ]. intros Hpl Hpu.
    destruct (flt (ab s) m) eqn:E.
    + rewrite (mediant_step_low m s E). cbn [b lowerB upperB].
      split; [intros Hpb; split; assumption | ].
      split; [intros _ [Hpb _]; exact Hpb | ].
      intros Hpb Ho. destruct (no_overflow_low m s E Ho) as [_ ->]. lia.
    + rewrite (mediant_step_high m s E). cbn [b lowerB upperB].
      split; [intros Hpb; split; assumption | ].
      split; [intros _ [_ Hpb]; exact Hpb | ].
      intros Hpb Ho. destruct (no_overflow_high m s E Ho) as [_ ->]. lia.
Qed.

Lemma bracket_preserved_witness :
  (a (init spec_example) <> 0 \/ b (init spec_example) <> 0)
  /\ bracket (mantissa spec_example) (init spec_example) = true
  /\ bracket (mantissa spec_example)
       (for_loop (mantissa spec_example) 1 (init spec_example)) = true.
Proof.
  assert (Hnz : a (init spec_example) <> 0 \/ b (init spec_example) <> 0)
    by (right; simpl; lia).
  assert (Hb : bracket (mantissa spec_example) (init spec_example) = true)
    by reflexivity.
  split; [exact Hnz | split; [exact Hb | ]].
  refine (proj1 (bracket_preserved (mantissa spec_example) (init spec_example)
                   eq_refl _ Hnz Hb)).
  unfold ints_in_range, in_int, INT_MIN, INT_MAX; simpl; lia.
Defined.

(** C4 as stated fails for a candidate with a negative denominator: in the
    call [(1, -1, 0, 1, 1, 1, 0.5, 2^-10, 1)] the bounds [0/1] and [1/1] have
    positive denominators and enclose the target; the candidate [1/-1] lies
    below the target, so the iteration makes it the lower bound, whose
    denominator is then [-1] (and the new candidate is [2/0]). *)
Lemma bracket_positivity_lost :
  bracket (mantissa negative_candidate_example)
    (init negative_candidate_example) = true
  /\ 0 < lowerB (init negative_candidate_example)
  /\ 0 < upperB (init negative_candidate_example)
  /\ for_loop (mantissa negative_candidate_example) 1
       (init negative_candidate_example)
     = mkState 2 0 1 (-1) 1 1 (ratio 2 0)
  /\ lowerB (for_loop (mantissa negative_candidate_example) 1
               (init negative_candidate_example)) < 0.
Proof.
  split; [reflexivity | ]. split; [simpl; lia | ]. split; [simpl; lia | ].
  split; [reflexivity | ]. vm_compute. reflexivity.
Qed.

(** The double inequality itself can be lost at a candidate [0/0], which
    compares with nothing: in the call [(-1, 0, 0, 1, 1, 0, 0.5, 2^-10, 2)]
    the first iteration keeps it and forms [0/0], the second one makes [0/0]
    the upper bound. *)
Example bracket_lost_at_undefined_candidate :
  bracket (mantissa undefined_candidate_example)
    (init undefined_candidate_example) = true
  /\ bracket (mantissa undefined_candidate_example)
       (for_loop (mantissa undefined_candidate_example) 1
          (init undefined_candidate_example)) = true
  /\ a (for_loop (mantissa undefined_candidate_example) 1
          (init undefined_candidate_example)) = 0
  /\ b (for_loop (mantissa undefined_candidate_example) 1
          (init undefined_candidate_example)) = 0
  /\ bracket (mantissa undefined_candidate_example)
       (batch (mantissa undefined_candidate_example)
          (microIterations undefined_candidate_example)
          (init undefined_candidate_example)) = false.
Proof. repeat split. Qed.

(** * The interval in exact arithmetic *)

Lemma frac_lt (n d n' d' : Z) :
  0 < d -> 0 < d' -> ((frac n d < frac n' d')%Q <-> n * d' < n' * d).
Proof.
  intros Hd Hd'. unfold frac, Qlt. cbn [Qnum Qden].
  rewrite !Z2Pos.id by lia. reflexivity.
Qed.

Lemma frac_eq (n d : Z) : (frac n d == frac n d)%Q.
Proof. reflexivity. Qed.

(** C5, as the code has it: from a state with positive denominators whose
    candidate lies strictly between the bounds (exact fractions), an
    iteration that takes a step moves exactly one bound onto the candidate
    and leaves the other, so the interval strictly shrinks at that end; the
    new candidate is the sum of the new bounds, numerator by numerator and
    denominator by denominator, as [int] sums; when these stay in range it is
    their mediant, it lies strictly between them again and the denominators
    stay positive. *)
Theorem interval_shrinks_inside (m : double) (s : state) :
  positive_denominators s -> strictly_inside s -> feq (ab s) m = false ->
  ((lowerA (for_loop m 1 s) = a s /\ lowerB (for_loop m 1 s) = b s
    /\ upperA (for_loop m 1 s) = upperA s /\ upperB (for_loop m 1 s) = upperB s
    /\ (lower_frac s < lower_frac (for_loop m 1 s))%Q
    /\ (upper_frac (for_loop m 1 s) == upper_frac s)%Q)
   \/ (upperA (for_loop m 1 s) = a s /\ upperB (for_loop m 1 s) = b s
       /\ lowerA (for_loop m 1 s) = lowerA s /\ lowerB (for_loop m 1 s) = lowerB s
       /\ (lower_frac (for_loop m 1 s) == lower_frac s)%Q
       /\ (upper_frac (for_loop m 1 s) < upper_frac s)%Q))
  /\ interval_strictly_shrinks s (for_loop m 1 s)
  /\ a (for_loop m 1 s)
     = add32 (lowerA (for_loop m 1 s)) (upperA (for_loop m 1 s))
  /\ b (for_loop m 1 s)
     = add32 (lowerB (for_loop m 1 s)) (upperB (for_loop m 1 s))
  /\ (step_overflows m s = false ->
      a (for_loop m 1 s) = lowerA (for_loop m 1 s) + upperA (for_loop m 1 s)
      /\ b (for_loop m 1 s) = lowerB (for_loop m 1 s) + upperB (for_loop m 1 s)
      /\ strictly_inside (for_loop m 1 s)
      /\ positive_denominators (for_loop m 1 s)).
Proof.
  intros (Hb & Hl & Hu) [H1 H2] He. cbn [for_loop]. rewrite He.
  unfold interval_strictly_shrinks, strictly_inside, positive_denominators.
  unfold lower_frac, upper_frac, candidate_frac in *.
  destruct (flt (ab s) m) eqn:E.
  - rewrite (mediant_step_low m s E). cbn [a b lowerA lowerB upperA upperB].
    split; [left; do 4 (split; [reflexivity | ]); split; [exact H1 | apply frac_eq] | ].
    split; [left; split; [exact H1 | apply frac_eq] | ].
    split; [reflexivity | ]. split; [reflexivity | ].
    intros Ho. destruct (no_overflow_low m s E Ho) as [-> ->].
    apply (proj1 (frac_lt _ _ _ _ Hl Hb)) in H1.
    apply (proj1 (frac_lt _ _ _ _ Hb Hu)) in H2.
    split; [reflexivity | ]. split; [reflexivity | ].
    split; [split; apply frac_lt; lia | lia].
  - rewrite (mediant_step_high m s E). cbn [a b lowerA lowerB upperA upperB].
    split; [right; do 4 (split; [reflexivity | ]); split; [apply frac_eq | exact H2] | ].
    split; [right; split; [apply frac_eq | exact H2] | ].
    split; [unfold add32; f_equal; apply Z.add_comm | ].
    split; [unfold add32; f_equal; apply Z.add_comm | ].
    intros Ho. destruct (no_overflow_high m s E Ho) as [-> ->].
    apply (proj1 (frac_lt _ _ _ _ Hl Hb)) in H1.
    apply (proj1 (frac_lt _ _ _ _ Hb Hu)) in H2.
    split; [apply Z.add_comm | ]. split; [apply Z.add_comm | ].
    split; [split; apply frac_lt; lia | lia].
Qed.

Lemma interval_shrinks_inside_witness :
  positive_denominators (init descending_example)
  /\ strictly_inside (init descending_example)
  /\ feq (ab (init descending_example)) (mantissa descending_example) = false
  /\ interval_strictly_shrinks (init descending_example)
       (for_loop (mantissa descending_example) 1 (init descending_example)).
Proof.
  assert (Hp : positive_denominators (init descending_example))
    by (unfold positive_denominators; simpl; lia).
  assert (Hi : strictly_inside (init descending_example))
    by (split; apply frac_lt; simpl; lia).
  assert (He : feq (ab (init descending_example)) (mantissa descending_example)
               = false) by reflexivity.
  split; [exact Hp | split; [exact Hi | split; [exact He | ]]].
  exact (proj1 (proj2 (interval_shrinks_inside (mantissa descending_example)
                         (init descending_example) Hp Hi He))).
Defined.

(** C5 as stated fails on the first step of the specification's own example
    ([0/1] between [0/1] and [1/1], target [0.5]): the denominators are
    positive, the bounds enclose the target and the step is taken, yet the
    candidate coincides with the lower bound, which it replaces, so neither
    end of the interval moves. *)
Lemma first_step_keeps_interval :
  positive_denominators (init spec_example)
  /\ bracket (mantissa spec_example) (init spec_example) = true
  /\ feq (ab (init spec_example)) (mantissa spec_example) = false
  /\ ~ interval_strictly_shrinks (init spec_example)
         (mediant_step (mantissa spec_example) (init spec_example)).
Proof.
  split; [unfold positive_denominators; simpl; lia | ].
  split; [reflexivity | ]. split; [reflexivity | ].
  unfold interval_strictly_shrinks, lower_frac, upper_frac.
  intros [[H _] | [_ H]]; vm_compute in H; discriminate.
Qed.

(** C5, the alternation: successive candidates need not lie on alternate
    sides of the target.  In the search for [1/8] from [1/2] between [0/1]
    and [1/1] (positive denominators, bounds enclosing the target) the
    candidates [1/2], [1/3] and [1/4] are all above the target, and each of
    the first two iterations moves the upper bound. *)
Example candidates_need_not_alternate :
  positive_denominators (init descending_example)
  /\ bracket (mantissa descending_example) (init descending_example) = true
  /\ flt (mantissa descending_example) (ab (init descending_example)) = true
  /\ for_loop (mantissa descending_example) 1 (init descending_example)
     = mkState 1 3 0 1 1 2 (ratio 1 3)
  /\ flt (mantissa descending_example) (ratio 1 3) = true
  /\ for_loop (mantissa descending_example) 2 (init descending_example)
     = mkState 1 4 0 1 1 3 (ratio 1 4)
  /\ flt (mantissa descending_example) (ratio 1 4) = true.
Proof.
  split; [unfold positive_denominators; simpl; lia | ]. repeat split.
Qed.

(** * Termination *)

Lemma scaled_cycle_closed (s : state) :
  In s scaled_cycle ->
  loop_cond (mantissa scaled_example) (precision scaled_example) s = true
  /\ In (batch (mantissa scaled_example) (microIterations scaled_example) s)
        scaled_cycle.
Proof.
  unfold scaled_cycle. cbn [map In].
  intros [<- | [<- | [<- | [<- | [<- | [<- | []]]]]]];
    (split; [vm_compute; reflexivity | ]).
  - right; left. reflexivity.
  - do 2 right; left. reflexivity.
  - do 3 right; left. reflexivity.
  - do 4 right; left. reflexivity.
  - do 5 right; left. reflexivity.
  - left. vm_compute. reflexivity.
Qed.

Lemma scaled_cycle_runs (fuel : nat) (s : state) :
  In s scaled_cycle ->
  while_loop (mantissa scaled_example) (precision scaled_example)
    (microIterations scaled_example) fuel s = None.
Proof.
  revert s. induction fuel as [ | fuel IH]; intros s Hs; cbn [while_loop]; trivial.
  destruct (scaled_cycle_closed s Hs) as [Hc Hn]. rewrite Hc. now apply IH.
Qed.

(** C1 as stated fails: the call below has a positive precision, one inner
    step per pass, positive denominators and bounds [0 <= 0.5 <= 1]; the
    mediant [2^30 / 2^31] that would hit the target does not fit an [int]
    (the first sum already leaves the range), and with wrap-around the
    locals enter a cycle of six states, none within tolerance: the call
    never returns. *)
Lemma scaled_example_never_returns :
  flt fzero (precision scaled_example) = true
  /\ 0 < microIterations scaled_example
  /\ nonzero_denominators (init scaled_example)
  /\ bracket (mantissa scaled_example) (init scaled_example) = true
  /\ step_overflows (mantissa scaled_example) (init scaled_example) = true
  /\ forall fuel, iterateRationalApproximation fuel scaled_example = None.
Proof.
  split; [reflexivity | ]. split; [reflexivity | ].
  split; [unfold nonzero_denominators; simpl; lia | ].
  split; [reflexivity | ]. split; [reflexivity | ].
  intros [ | fuel]; trivial.
  unfold iterateRationalApproximation. cbn [while_loop].
  replace (loop_cond _ _ (init scaled_example)) with true by reflexivity.
  rewrite scaled_cycle_runs; trivial.
  left. reflexivity.
Qed.

(** No bound on the overshoot either: below, the candidate [1/2] reached by
    the first inner step is within tolerance, the second step of the same
    pass leaves the tolerance again, and the call returns [6/11] only after
    six steps, with no overflow on the way. *)
Example overshoot_example_runs_on :
  a (mediant_step (mantissa overshoot_example) (init overshoot_example)) = 1
  /\ b (mediant_step (mantissa overshoot_example) (init overshoot_example)) = 2
  /\ within_tolerance (mantissa overshoot_example) (precision overshoot_example) 1 2
     = true
  /\ iterateRationalApproximation 3 overshoot_example = None
  /\ iterateRationalApproximation 4 overshoot_example = Some (6, 11)
  /\ while_loop_chk (mantissa overshoot_example) (precision overshoot_example)
       (microIterations overshoot_example) 4 (init overshoot_example)
     = Done (mkState 6 11 1 2 5 9 (ratio 6 11)).
Proof. repeat split. Qed.

(** ** Progress under an invariant with a bounded, growing measure *)

Section Progress.
Variables (m p : double) (micro : Z).
Variable Inv : state -> Prop.
Variable measure : state -> Z.
Variable top : Z.
Hypothesis Hp : flt fzero p = true.
Hypothesis Hmicro : 0 < micro.
Hypothesis Inv_step :
  forall s, Inv s -> feq (ab s) m = false -> step_overflows m s = false ->
            Inv (mediant_step m s) /\ measure s < measure (mediant_step m s).
Hypothesis Inv_top : forall s, Inv s -> measure s <= top.

Lemma for_loop_chk_progress (n : nat) (s s' : state) :
  Inv s -> for_loop_chk m n s = Some s' ->
  for_loop m n s = s' /\ Inv s' /\ measure s <= measure s'
  /\ (feq (ab s) m = false -> (0 < n)%nat -> measure s < measure s').
Proof.
  revert s. induction n as [ | n IH]; intros s Hs; cbn [for_loop_chk for_loop].
  - intros [= <-]. split; [reflexivity | ]. split; [exact Hs | ].
    split; [lia | ]. intros _ H. inversion H.
  - destruct (feq (ab s) m) eqn:He.
    + intros [= <-]. split; [reflexivity | ]. split; [exact Hs | ].
      split; [lia | ]. discriminate.
    + destruct (step_overflows m s) eqn:Ho; try discriminate.
      destruct (Inv_step s Hs He Ho) as [Hs1 Hlt].
      intros H. destruct (IH _ Hs1 H) as (Hf & Hs' & Hle & _).
      split; [exact Hf | ]. split; [exact Hs' | ]. split; [lia | ]. intros; lia.
Qed.

Lemma while_loop_chk_progress (n : nat) (s : state) :
  Inv s -> top - measure s < Z.of_nat n ->
  while_loop_chk m p micro n s = Overflow
  \/ exists r, while_loop m p micro n s = Some r
               /\ Inv r /\ loop_cond m p r = false.
Proof.
  revert s. induction n as [ | n IH]; intros s Hs Hn.
  - pose proof (Inv_top s Hs). lia.
  - cbn [while_loop_chk while_loop]. unfold batch.
    destruct (loop_cond m p s) eqn:Hc; eauto.
    destruct (for_loop_chk m (Z.to_nat micro) s) as [s' | ] eqn:Hf; auto.
    destruct (for_loop_chk_progress _ s s' Hs Hf) as (-> & Hs' & _ & Hlt).
    assert (He : feq (ab s) m = false).
    { destruct (feq (ab s) m) eqn:He; trivial.
      rewrite (exact_hit_stops m p s Hp He) in Hc. discriminate. }
    apply IH; trivial. specialize (Hlt He ltac:(lia)). lia.
Qed.
End Progress.

(** ** The safety invariant *)

Lemma safe_not_nan (m : double) (s : state) : safe m s -> is_nan (ab s) = false.
Proof.
  intros (Hk & (Ha & Hb & _) & Hc & _). rewrite Hk. now apply ratio_not_nan.
Qed.

Lemma safe_step (m : double) (s : state) :
  safe m s -> feq (ab s) m = false -> step_overflows m s = false ->
  safe m (mediant_step m s).
Proof.
  intros Hs He Ho. pose proof (safe_not_nan m s Hs) as Hn.
  destruct Hs as (Hk & Hr & Hc & Hz & Hbr & Hm).
  pose proof (mediant_step_in_range m s Hr) as Hr'.
  pose proof (bracket_preserved_regular m s Hn Hbr Hk) as Hbr'.
  pose proof (mediant_step_consistent m s) as Hk'.
  assert (Hmn : is_nan m = false) by now destruct m.
  destruct Hr as (Ha & Hb & Hla & Hlb & Hua & Hub).
  unfold bracket in Hbr. apply andb_true_iff in Hbr. destruct Hbr as [Hl Hu].
  assert (Hd : (a (mediant_step m s) <> 0 \/ b (mediant_step m s) <> 0)
               /\ (b (mediant_step m s) = 0 ->
                   lowerB (mediant_step m s) <> 0 /\ upperB (mediant_step m s) <> 0)).
  { destruct (flt (ab s) m) eqn:E.
    - rewrite (mediant_step_low m s E). cbn [a b lowerB upperB].
      destruct (no_overflow_low m s E Ho) as [-> ->].
      split; [ | lia].
      destruct (Z.eq_dec (b s) 0) as [Hb0 | Hb0]; [lia | ].
      destruct (Z.eq_dec (a s + upperA s) 0) as [Ha0 | ]; [ | now left].
      destruct (Z.eq_dec (b s + upperB s) 0) as [Hb1 | ]; [ | now right].
      exfalso. apply (flt_fle_absurd _ _ E).
      replace (upperA s) with (- a s) in Hu by lia.
      replace (upperB s) with (- b s) in Hu by lia.
      unfold fle, SFleb in *.
      rewrite (proj2 (ratio_opp_compare (a s) (b s) m Ha Hb Hb0)) in Hu.
      now rewrite Hk.
    - rewrite (mediant_step_high m s E). cbn [a b lowerB upperB].
      destruct (no_overflow_high m s E Ho) as [-> ->].
      split; [ | lia].
      destruct (Z.eq_dec (b s) 0) as [Hb0 | Hb0]; [lia | ].
      destruct (Z.eq_dec (a s + lowerA s) 0) as [Ha0 | ]; [ | now left].
      destruct (Z.eq_dec (b s + lowerB s) 0) as [Hb1 | ]; [ | now right].
      exfalso.
      pose proof (not_flt_not_feq_gt _ _ Hn Hmn E He) as Hgt.
      apply (flt_fle_absurd _ _ Hgt).
      replace (lowerA s) with (- a s) in Hl by lia.
      replace (lowerB s) with (- b s) in Hl by lia.
      unfold fle, SFleb in *.
      rewrite (proj1 (ratio_opp_compare (a s) (b s) m Ha Hb Hb0)) in Hl.
      now rewrite Hk. }
  destruct Hd as [Hc' Hz'].
  repeat (split; [assumption | ]). assumption.
Qed.

Lemma safe_exit (m p : double) (s : state) :
  safe m s -> is_nan p = false -> loop_cond m p s = false ->
  within_tolerance m p (a s) (b s) = true.
Proof.
  intros Hs Hp Hc. pose proof (safe_not_nan m s Hs) as Hn.
  destruct Hs as (Hk & (Ha & Hb & _) & Hab & _ & _ & Hm).
  assert (Hmn : is_nan m = false) by now destruct m.
  unfold within_tolerance. rewrite <- Hk.
  destruct (Z.eq_dec (b s) 0) as [Hb0 | Hb0].
  - assert (Hi : is_inf (ab s) = true).
    { rewrite Hk, Hb0. apply ratio_infinite; trivial. lia. }
    rewrite (loop_cond_inf m p s Hi Hm Hp) in Hc. discriminate.
  - apply not_fge_flt; trivial. rewrite fabs_nan.
    apply fsub_not_nan; trivial. rewrite Hk. now apply ratio_regular.
Qed.

(** ** The potential *)

Lemma cross_bound (x y z w : Z) :
  in_int x -> in_int y -> in_int z -> in_int w ->
  - 2 ^ 63 <= cross x y z w <= 2 ^ 63.
Proof. unfold cross, in_int, INT_MIN, INT_MAX. intros. nia. Qed.

Section PotentialFacts.
Variables pa pb qa qb : Z.
Variable m : double.

Lemma tracked_denominators (s : state) :
  safe m s -> tracked pa pb qa qb s -> det pa pb qa qb = 0 ->
  lowerB s <> 0 /\ upperB s <> 0 /\ b s <> 0.
Proof.
  intros (_ & _ & Hc & Hz & _) (_ & _ & _ & _ & Ha & Hb & Hd & Hl & Hu & _) H0.
  rewrite H0 in Hd. unfold cross in Hd.
  assert (lowerB s <> 0 \/ upperB s <> 0) by lia.
  assert (lowerB s <> 0 /\ upperB s <> 0) as [H1 H2] by nia.
  repeat split; trivial. nia.
Qed.

Lemma potential_range (s : state) :
  safe m s -> tracked pa pb qa qb s ->
  0 <= potential pa pb qa qb s <= 2 ^ 65.
Proof.
  intros Hs Ht. unfold potential.
  destruct (det pa pb qa qb =? 0) eqn:Hd.
  - destruct Hs as (_ & (_ & _ & _ & Hlb & _ & Hub) & _).
    unfold phase, in_int, INT_MIN, INT_MAX in *.
    destruct (Z.sgn (lowerB s) =? Z.sgn (upperB s)); lia.
  - apply Z.eqb_neq in Hd.
    destruct Hs as (_ & (_ & _ & Hla & Hlb & Hua & Hub) & _).
    destruct Ht as (Hpa & Hpb & Hqa & Hqb & _ & _ & _ & _ & _ & Hw).
    specialize (Hw Hd). unfold weight. unfold coeffs in *.
    pose proof (cross_bound _ _ _ _ Hla Hlb Hqa Hqb).
    pose proof (cross_bound _ _ _ _ Hpa Hpb Hla Hlb).
    pose proof (cross_bound _ _ _ _ Hua Hub Hqa Hqb).
    pose proof (cross_bound _ _ _ _ Hpa Hpb Hua Hub).
    destruct (Z.sgn_spec (det pa pb qa qb)) as [[_ E] | [[E _] | [_ E]]];
      rewrite E in *; lia.
Qed.

Lemma tracked_kept (s : state) :
  safe m s -> tracked pa pb qa qb s -> step_overflows m s = false ->
  tracked pa pb qa qb (mediant_step m s).
Proof.
  intros (_ & _ & Hc & _) (Hpa & Hpb & Hqa & Hqb & Ha & Hb & Hd & Hl & Hu & Hw) Ho.
  unfold tracked.
  destruct (flt (ab s) m) eqn:E.
  - rewrite (mediant_step_low m s E). cbn [a b lowerA lowerB upperA upperB].
    destruct (no_overflow_low m s E Ho) as [-> ->].
    repeat (split; [assumption || reflexivity | ]).
    split; [rewrite <- Hd, Ha, Hb; unfold cross; lia | ].
    split; [assumption | ]. split; [assumption | ].
    intros Hn. specialize (Hw Hn). unfold coeffs, cross in *.
    cbn [lowerA lowerB upperA upperB]. rewrite Ha, Hb. lia.
  - rewrite (mediant_step_high m s E). cbn [a b lowerA lowerB upperA upperB].
    destruct (no_overflow_high m s E Ho) as [-> ->].
    repeat (split; [assumption || lia | ]).
    split; [rewrite <- Hd, Ha, Hb; unfold cross; lia | ].
    split; [assumption | ]. split; [assumption | ].
    intros Hn. specialize (Hw Hn). unfold coeffs, cross in *.
    cbn [lowerA lowerB upperA upperB]. rewrite Ha, Hb. lia.
Qed.

Lemma potential_grows (s : state) :
  safe m s -> tracked pa pb qa qb s ->
  feq (ab s) m = false -> step_overflows m s = false ->
  potential pa pb qa qb s < potential pa pb qa qb (mediant_step m s).
Proof.
  intros Hs Ht He Ho.
  pose proof (safe_step m s Hs He Ho) as Hs'.
  pose proof (tracked_kept s Hs Ht Ho) as Ht'.
  unfold potential. destruct (det pa pb qa qb =? 0) eqn:Hd.
  - apply Z.eqb_eq in Hd.
    destruct (tracked_denominators s Hs Ht Hd) as (H1 & H2 & H3).
    destruct (tracked_denominators _ Hs' Ht' Hd) as (H1' & H2' & H3').
    destruct Ht as (_ & _ & _ & _ & _ & Hb & _).
    revert H1' H2' H3'. unfold phase.
    destruct (flt (ab s) m) eqn:E.
    + rewrite (mediant_step_low m s E). cbn [b lowerB upperB].
      destruct (no_overflow_low m s E Ho) as [_ ->]. rewrite Hb. intros.
      destruct (Z.sgn (lowerB s) =? Z.sgn (upperB s)) eqn:E1;
        destruct (Z.sgn (lowerB s + upperB s) =? Z.sgn (upperB s)) eqn:E2;
        lia.
    + rewrite (mediant_step_high m s E). cbn [b lowerB upperB].
      destruct (no_overflow_high m s E Ho) as [_ ->]. rewrite Hb. intros.
      destruct (Z.sgn (lowerB s) =? Z.sgn (upperB s)) eqn:E1;
        destruct (Z.sgn (lowerB s) =? Z.sgn (lowerB s + upperB s)) eqn:E2;
        lia.
  - apply Z.eqb_neq in Hd.
    destruct Ht as (_ & _ & _ & _ & Ha & Hb & _ & _ & _ & Hw).
    specialize (Hw Hd). unfold weight, coeffs, cross in *.
    destruct (flt (ab s) m) eqn:E.
    + rewrite (mediant_step_low m s E). cbn [lowerA lowerB upperA upperB].
      rewrite Ha, Hb. lia.
    + rewrite (mediant_step_high m s E). cbn [lowerA lowerB upperA upperB].
      rewrite Ha, Hb. lia.
Qed.
End PotentialFacts.

Lemma init_safe (m : double) (s : state) :
  consistent s -> ints_in_range s -> nonzero_denominators s ->
  bracket m s = true -> safe m s.
Proof.
  intros Hk Hr (Hb & Hlb & Hub) Hbr. unfold safe.
  repeat (split; [assumption || (right; assumption) || (intros; contradiction) | ]).
  destruct Hr as (_ & _ & Hla & Hilb & Hua & Hiub).
  unfold bracket in Hbr. apply andb_true_iff in Hbr. destruct Hbr as [Hl Hu].
  destruct (ratio_regular _ _ Hla Hilb Hlb) as [H1 H2].
  destruct (ratio_regular _ _ Hua Hiub Hub) as [H3 H4].
  exact (between_regular_finite _ _ m H1 H2 H3 H4 Hl Hu).
Qed.

Lemma tracked_first (m : double) (s : state) :
  ints_in_range s -> nonzero_denominators s -> step_overflows m s = false ->
  tracked (lowerA (mediant_step m s)) (lowerB (mediant_step m s))
          (upperA (mediant_step m s)) (upperB (mediant_step m s))
          (mediant_step m s).
Proof.
  intros Hr (Hb & Hlb & Hub) Ho.
  pose proof (mediant_step_in_range m s Hr) as (_ & _ & Hla' & Hlb' & Hua' & Hub').
  unfold tracked. do 4 (split; [assumption | ]). clear Hla' Hlb' Hua' Hub'.
  unfold coeffs, det.
  destruct (flt (ab s) m) eqn:E.
  - rewrite (mediant_step_low m s E). cbn [a b lowerA lowerB upperA upperB].
    destruct (no_overflow_low m s E Ho) as [-> ->].
    do 5 (split; [reflexivity || (right; assumption) | ]).
    unfold cross. intros Hn.
    destruct (Z.sgn_spec (a s * upperB s - b s * upperA s)) as [[? ->] | [[? ->] | [? ->]]];
      lia.
  - rewrite (mediant_step_high m s E). cbn [a b lowerA lowerB upperA upperB].
    destruct (no_overflow_high m s E Ho) as [-> ->].
    do 5 (split; [lia || (right; assumption) | ]).
    unfold cross. intros Hn.
    destruct (Z.sgn_spec (lowerA s * b s - lowerB s * a s)) as [[? ->] | [[? ->] | [? ->]]];
      lia.
Qed.

(** C1, as the code has it: with a positive precision, a positive
    [microIterations], nonzero denominators and bounds that enclose the
    target, within [2^65 + 2] passes of the outer loop either a mediant sum
    leaves the [int] range or the call returns a pair [(x, y)] with
    [|x/y - mantissa| < precision]. *)
Theorem search_returns_or_overflows (g : Args) :
  flt fzero (precision g) = true -> 0 < microIterations g ->
  ints_in_range (init g) -> nonzero_denominators (init g) ->
  bracket (mantissa g) (init g) = true ->
  exists fuel,
    (fuel <= Z.to_nat (2 ^ 65 + 2))%nat
    /\ (while_loop_chk (mantissa g) (precision g) (microIterations g) fuel (init g)
        = Overflow
        \/ exists x y,
            iterateRationalApproximation fuel g = Some (x, y)
            /\ within_tolerance (mantissa g) (precision g) x y = true).
Proof.
  intros Hp Hmicro Hr Hnz Hbr.
  set (m := mantissa g) in *. set (p := precision g) in *.
  set (micro := microIterations g) in *.
  pose proof (init_safe m (init g) (init_consistent g) Hr Hnz Hbr) as Hs.
  assert (Hpn : is_nan p = false) by exact (proj2 (flt_not_nan _ _ Hp)).
  exists (S (Z.to_nat (2 ^ 65 + 1))). split; [lia | ].
  unfold iterateRationalApproximation. fold m p micro.
  cbn [while_loop_chk while_loop]. unfold batch.
  destruct (loop_cond m p (init g)) eqn:Hc.
  2:{ right. exists (a (init g)), (b (init g)). split; trivial.
      now apply safe_exit. }
  assert (He : feq (ab (init g)) m = false).
  { destruct (feq (ab (init g)) m) eqn:He; trivial.
    rewrite (exact_hit_stops m p _ Hp He) in Hc. discriminate. }
  destruct (Z.to_nat micro) as [ | k] eqn:Hk; [lia | ].
  cbn [for_loop_chk for_loop]. rewrite He.
  destruct (step_overflows m (init g)) eqn:Ho; auto.
  pose proof (safe_step m _ Hs He Ho) as Hs1.
  pose proof (tracked_first m _ Hr Hnz Ho) as Ht1.
  set (s1 := mediant_step m (init g)) in *.
  set (Inv := fun s => safe m s /\
                       tracked (lowerA s1) (lowerB s1) (upperA s1) (upperB s1) s).
  set (measure := potential (lowerA s1) (lowerB s1) (upperA s1) (upperB s1)).
  assert (Hstep : forall s, Inv s -> feq (ab s) m = false ->
                            step_overflows m s = false ->
                            Inv (mediant_step m s) /\ measure s < measure (mediant_step m s)).
  { intros s [H1 H2] H3 H4. split; [split | ].
    - now apply safe_step.
    - now apply (tracked_kept _ _ _ _ m).
    - now apply (potential_grows _ _ _ _ m). }
  assert (Htop : forall s, Inv s -> measure s <= 2 ^ 65).
  { intros s [H1 H2]. exact (proj2 (potential_range _ _ _ _ m _ H1 H2)). }
  destruct (for_loop_chk m k s1) as [s' | ] eqn:Hf; auto.
  destruct (for_loop_chk_progress m Inv measure Hstep k s1 s' (conj Hs1 Ht1) Hf)
    as (-> & Hs' & _).
  assert (H0 : 0 <= measure s').
  { destruct Hs' as [H1 H2]. exact (proj1 (potential_range _ _ _ _ m _ H1 H2)). }
  destruct (while_loop_chk_progress m p micro Inv measure (2 ^ 65) Hp Hmicro Hstep Htop
              (Z.to_nat (2 ^ 65 + 1)) _ Hs' ltac:(lia))
    as [Hov | (r & Hw & [Hsr _] & Hcr)]; auto.
  right. exists (a r), (b r). rewrite Hw. split; trivial.
  now apply safe_exit.
Qed.

Lemma search_returns_or_overflows_witness :
  exists fuel,
    (fuel <= Z.to_nat (2 ^ 65 + 2))%nat
    /\ (while_loop_chk (mantissa spec_example) (precision spec_example)
          (microIterations spec_example) fuel (init spec_example) = Overflow
        \/ exists x y,
            iterateRationalApproximation fuel spec_example = Some (x, y)
            /\ within_tolerance (mantissa spec_example) (precision spec_example) x y
               = true).
Proof.
  apply (search_returns_or_overflows spec_example).
  - reflexivity.
  - simpl; lia.
  - unfold ints_in_range, in_int, INT_MIN, INT_MAX; simpl; lia.
  - unfold nonzero_denominators; simpl; lia.
  - reflexivity.
Defined.

Lemma mediant_step_invariant (m : double) (s : state) :
  search_invariant s -> step_overflows m s = false ->
  search_invariant (mediant_step m s) /\ b s < b (mediant_step m s).
Proof.
  intros (Hk & Hr & Hb & Hl & Hu) Ho.
  assert (Hr' : ints_in_range (mediant_step m s)) by now apply mediant_step_in_range.
  pose proof (mediant_step_consistent m s) as Hk'.
  assert (Hd : 0 < lowerB (mediant_step m s) /\ 0 < upperB (mediant_step m s)
               /\ b s < b (mediant_step m s)).
  { destruct (flt (ab s) m) eqn:E.
    - rewrite (mediant_step_low m s E). cbn [b lowerB upperB].
      destruct (no_overflow_low m s E Ho) as [_ ->]. lia.
    - rewrite (mediant_step_high m s E). cbn [b lowerB upperB].
      destruct (no_overflow_high m s E Ho) as [_ ->]. lia. }
  destruct Hd as (Hl' & Hu' & Hlt).
  split; trivial. split; trivial. split; trivial.
  unfold positive_denominators. lia.
Qed.

(** X10: with positive denominators the candidate's denominator grows at
    every step, so [2^31] passes are enough: within them a sum leaves the
    range or the call returns a pair within tolerance. *)
Lemma search_positive_returns_or_overflows (g : Args) :
  flt fzero (precision g) = true -> 0 < microIterations g ->
  ints_in_range (init g) -> positive_denominators (init g) ->
  bracket (mantissa g) (init g) = true ->
  exists fuel,
    (fuel <= Z.to_nat (2 ^ 31))%nat
    /\ (while_loop_chk (mantissa g) (precision g) (microIterations g) fuel (init g)
        = Overflow
        \/ exists x y,
            iterateRationalApproximation fuel g = Some (x, y)
            /\ within_tolerance (mantissa g) (precision g) x y = true).
Proof.
  intros Hp Hmicro Hr Hpos Hbr.
  assert (Hnz : nonzero_denominators (init g)).
  { destruct Hpos as (H1 & H2 & H3). unfold nonzero_denominators. lia. }
  pose proof (init_safe _ _ (init_consistent g) Hr Hnz Hbr) as Hsafe.
  assert (Hs : search_invariant (init g))
    by (split; [apply init_consistent | now split]).
  assert (Hb : 0 < b (init g) <= INT_MAX).
  { destruct Hpos as [Hb _]. destruct Hr as (_ & Hb' & _).
    unfold in_int in Hb'. lia. }
  unfold INT_MAX in Hb.
  exists (Z.to_nat (2 ^ 31 + 1 - b (init g))). split; [lia | ].
  destruct (while_loop_chk_progress (mantissa g) (precision g) (microIterations g)
              (fun s => search_invariant s /\ safe (mantissa g) s) b (2 ^ 31 - 1)
              Hp Hmicro)
    with (n := Z.to_nat (2 ^ 31 + 1 - b (init g))) (s := init g)
    as [Ho | (r & Hw & [_ Hsr] & Hc)]; auto; try lia.
  - intros s [H1 H2] He Ho.
    destruct (mediant_step_invariant _ s H1 Ho) as [H3 H4].
    split; [split | ]; trivial. now apply safe_step.
  - intros s [(_ & (_ & H & _) & _) _]. unfold in_int, INT_MAX in H. lia.
  - right. exists (a r), (b r). unfold iterateRationalApproximation.
    rewrite Hw. split; trivial. clear Hw.
    apply safe_exit; trivial. exact (proj2 (flt_not_nan _ _ Hp)).
Qed.

(** The exact-value scenario of the specification: the search from [0/1]
    between [0/1] and [1/1] for [0.5] returns [1/2] after one step, without
    any overflow. *)
Example spec_example_returns :
  iterateRationalApproximation 2 spec_example = Some (1, 2)
  /\ while_loop_chk (mantissa spec_example) (precision spec_example)
       (microIterations spec_example) 2 (init spec_example)
     = Done (mkState 1 2 0 1 1 1 (ratio 1 2)).
Proof. split; reflexivity. Qed.

Lemma search_positive_returns_or_overflows_witness :
  exists fuel,
    (fuel <= Z.to_nat (2 ^ 31))%nat
    /\ (while_loop_chk (mantissa farey_example) (precision farey_example)
          (microIterations farey_example) fuel (init farey_example) = Overflow
        \/ exists x y,
            iterateRationalApproximation fuel farey_example = Some (x, y)
            /\ within_tolerance (mantissa farey_example) (precision farey_example) x y
               = true).
Proof.
  apply (search_positive_returns_or_overflows farey_example).
  - reflexivity.
  - simpl; lia.
  - unfold ints_in_range, in_int, INT_MIN, INT_MAX; simpl; lia.
  - unfold positive_denominators; simpl; lia.
  - reflexivity.
Defined.

(** * Further properties of the search

    ** Passes compose *)

Lemma for_loop_app (m : double) (n k : nat) (s : state) :
  for_loop m (n + k) s = for_loop m k (for_loop m n s).
Proof.
  revert s. induction n as [ | n IH]; intros s; cbn [Nat.add for_loop]; trivial.
  destruct (feq (ab s) m) eqn:He; trivial.
  now rewrite for_loop_exact_hit.
Qed.

(** X1: a pass of [n + k] inner steps is a pass of [n] steps followed by a
    pass of [k] steps ([n], [k] not negative): an exact hit that stops the
    first pass stops the second at once. *)
Theorem batch_add (m : double) (n k : Z) (s : state) :
  0 <= n -> 0 <= k -> batch m (n + k) s = batch m k (batch m n s).
Proof.
  intros Hn Hk. unfold batch. rewrite Z2Nat.inj_add by trivial. apply for_loop_app.
Qed.

Lemma batch_add_witness :
  0 <= 1 /\ 0 <= 2
  /\ batch (mantissa overshoot_example) (1 + 2) (init overshoot_example)
     = batch (mantissa overshoot_example) 2
         (batch (mantissa overshoot_example) 1 (init overshoot_example)).
Proof.
  split; [lia | split; [lia | ]].
  apply (batch_add (mantissa overshoot_example) 1 2 (init overshoot_example)); lia.
Defined.

(** ** Where the search stops *)

Lemma boundary_S (m : double) (micro : Z) (k : nat) (s : state) :
  boundary m micro (S k) s = boundary m micro k (batch m micro s).
Proof. unfold boundary, batch. cbn [Nat.mul]. apply for_loop_app. Qed.

Lemma while_loop_first_boundary (m p : double) (micro : Z) (fuel : nat) (s r : state) :
  while_loop m p micro fuel s = Some r <->
  exists k, (k < fuel)%nat /\ r = boundary m micro k s
            /\ loop_cond m p (boundary m micro k s) = false
            /\ forall j, (j < k)%nat -> loop_cond m p (boundary m micro j s) = true.
Proof.
  revert s. induction fuel as [ | fuel IH]; intros s; cbn [while_loop].
  - split; [discriminate | intros (k & Hk & _); lia].
  - destruct (loop_cond m p s) eqn:Hc.
    + rewrite IH. split.
      * intros (k & Hk & Hr & Hf & Hj). exists (S k). rewrite boundary_S.
        split; [lia | ]. split; [exact Hr | ]. split; [exact Hf | ].
        intros [ | j] Hlt; [exact Hc | rewrite boundary_S; apply Hj; lia].
      * intros ([ | k] & Hk & Hr & Hf & Hj).
        -- unfold boundary in Hf. cbn in Hf. congruence.
        -- exists k. rewrite boundary_S in Hr, Hf.
           split; [lia | ]. split; [exact Hr | ]. split; [exact Hf | ].
           intros j Hlt. rewrite <- boundary_S. apply Hj. lia.
    + split.
      * intros [= <-]. exists O.
        split; [lia | ]. split; [reflexivity | ]. split; [exact Hc | ].
        intros j Hj. lia.
      * intros ([ | k] & Hk & Hr & Hf & Hj).
        -- now rewrite Hr.
        -- specialize (Hj O ltac:(lia)). unfold boundary in Hj. cbn in Hj. congruence.
Qed.

(** X2: the call returns [(x, y)] within [fuel] passes exactly when [(x, y)]
    is the candidate at the first outer test that fails, the tests being made
    after [0], [microIterations], [2 * microIterations], ... inner steps. *)
Theorem iterate_first_boundary (fuel : nat) (g : Args) (x y : Z) :
  iterateRationalApproximation fuel g = Some (x, y) <->
  exists k, (k < fuel)%nat
            /\ x = a (boundary (mantissa g) (microIterations g) k (init g))
            /\ y = b (boundary (mantissa g) (microIterations g) k (init g))
            /\ loop_cond (mantissa g) (precision g)
                 (boundary (mantissa g) (microIterations g) k (init g)) = false
            /\ forall j, (j < k)%nat ->
                 loop_cond (mantissa g) (precision g)
                   (boundary (mantissa g) (microIterations g) j (init g)) = true.
Proof.
  unfold iterateRationalApproximation. split.
  - destruct (while_loop _ _ _ fuel (init g)) as [r | ] eqn:Hw; try discriminate.
    intros [= <- <-]. apply while_loop_first_boundary in Hw.
    destruct Hw as (k & Hk & -> & Hf & Hj). exists k. auto.
  - intros (k & Hk & -> & -> & Hf & Hj).
    assert (Hw : while_loop (mantissa g) (precision g) (microIterations g) fuel (init g)
                 = Some (boundary (mantissa g) (microIterations g) k (init g))).
    { apply while_loop_first_boundary. exists k. auto. }
    now rewrite Hw.
Qed.

(** ** NaN arguments *)

Lemma loop_cond_nan_target (m p : double) (s : state) :
  is_nan m = true \/ is_nan p = true -> loop_cond m p s = false.
Proof.
  unfold loop_cond. intros [H | H].
  - destruct m; try discriminate. now destruct (ab s).
  - destruct p; try discriminate. unfold fge.
    now destruct (fabs (fsub (ab s) S754_nan)); destruct (fabs (fsub (ab s) m)).
Qed.

(** X5: when [mantissa] or [precision] is a NaN the loop test is false at
    entry, and the candidate is returned as given, whatever it is. *)
Theorem nan_argument_returns (fuel : nat) (g : Args) :
  is_nan (mantissa g) = true \/ is_nan (precision g) = true ->
  iterateRationalApproximation (S fuel) g = Some (arg_a g, arg_b g).
Proof.
  intros H. unfold iterateRationalApproximation.
  now rewrite (while_loop_exit _ _ _ _ _ (loop_cond_nan_target _ _ (init g) H)).
Qed.

Lemma nan_argument_returns_witness :
  is_nan (mantissa (mkArgs 7 0 0 1 1 1 S754_nan (pow2 (-10)) 1)) = true
  /\ iterateRationalApproximation 1 (mkArgs 7 0 0 1 1 1 S754_nan (pow2 (-10)) 1)
     = Some (7, 0).
Proof.
  split; [reflexivity | ].
  exact (nan_argument_returns 0 (mkArgs 7 0 0 1 1 1 S754_nan (pow2 (-10)) 1)
           (or_introl eq_refl)).
Defined.

(** ** A precision that is not positive *)

Lemma fabs_ge_nonpositive (x p : double) :
  fle p fzero = true -> is_nan x = false -> fge (fabs x) p = true.
Proof.
  destruct p as [sp | sp | | sp mp ep]; try discriminate;
    destruct x as [sx | sx | | sx mx ex]; try discriminate;
    try destruct sp; try discriminate; reflexivity.
Qed.

Lemma feq_difference_zero (x y : double) :
  feq x y = true -> is_inf y = false -> fabs (fsub x y) = S754_zero false.
Proof.
  intros He Hy. destruct (feq_difference x y He) as [H | H]; trivial.
  rewrite fabs_nan in H.
  destruct x as [sx | sx | | sx mx ex], y as [sy | sy | | sy my ey];
    try discriminate; try (destruct sx; discriminate).
  - now destruct sx, sy.
  - rewrite fsub_not_nan in H by reflexivity. discriminate.
Qed.

(** X6: with [precision <= 0] and a candidate whose ratio equals a target
    that is not infinite, the call never returns: the exact hit stops every
    pass before its first step and [|0| >= precision] stays true. *)
Theorem nonpositive_precision_exact_hit_diverges (g : Args) :
  fle (precision g) fzero = true ->
  feq (ratio (arg_a g) (arg_b g)) (mantissa g) = true ->
  is_inf (mantissa g) = false ->
  forall fuel, iterateRationalApproximation fuel g = None.
Proof.
  intros Hp He Hm fuel. unfold iterateRationalApproximation.
  rewrite while_loop_stuck; trivial.
  - unfold loop_cond. cbn [init ab]. rewrite (feq_difference_zero _ _ He Hm).
    now apply (fabs_ge_nonpositive (S754_zero false)).
  - unfold batch. now apply for_loop_exact_hit.
Qed.

Lemma nonpositive_precision_exact_hit_diverges_witness :
  fle (precision (mkArgs 1 2 0 1 1 1 (pow2 (-1)) fzero 1)) fzero = true
  /\ iterateRationalApproximation 9 (mkArgs 1 2 0 1 1 1 (pow2 (-1)) fzero 1) = None.
Proof.
  split; [reflexivity | ].
  exact (nonpositive_precision_exact_hit_diverges
           (mkArgs 1 2 0 1 1 1 (pow2 (-1)) fzero 1) eq_refl eq_refl eq_refl 9%nat).
Defined.

(** X7: with [precision <= 0] the call returns only on a NaN: the difference
    [x/y - mantissa] of a returned pair is a NaN, so [y = 0] unless [mantissa]
    itself is a NaN. *)
Theorem nonpositive_precision_returns_degenerate (fuel : nat) (g : Args) (x y : Z) :
  fle (precision g) fzero = true -> ints_in_range (init g) ->
  iterateRationalApproximation fuel g = Some (x, y) ->
  is_nan (fsub (ratio x y) (mantissa g)) = true
  /\ (y = 0 \/ is_nan (mantissa g) = true).
Proof.
  intros Hp Hr H. destruct (returned_state _ _ _ _ H) as (r & Hw & <- & <-).
  pose proof (while_loop_result_exits _ _ _ _ _ _ Hw) as Hc.
  pose proof (while_loop_consistent _ _ _ _ _ _ (init_consistent g) Hw) as Hk.
  pose proof (while_loop_in_range _ _ _ _ _ _ Hr Hw) as (Ha & Hb & _).
  unfold loop_cond in Hc. rewrite Hk in Hc.
  assert (Hn : is_nan (fsub (ratio (a r) (b r)) (mantissa g)) = true).
  { destruct (is_nan (fsub (ratio (a r) (b r)) (mantissa g))) eqn:E; trivial.
    rewrite (fabs_ge_nonpositive _ _ Hp E) in Hc. discriminate. }
  split; trivial.
  destruct (Z.eq_dec (b r) 0) as [ | Hb0]; [now left | right].
  destruct (is_nan (mantissa g)) eqn:Hm; trivial.
  destruct (ratio_regular _ _ Ha Hb Hb0) as [H1 H2].
  rewrite (fsub_not_nan _ _ H1 H2 Hm) in Hn. discriminate.
Qed.

Lemma nonpositive_precision_returns_degenerate_witness :
  fle (precision (mkArgs 1 1 (-1) (-1) 1 1 (pow2 (-1)) fzero 1)) fzero = true
  /\ iterateRationalApproximation 2 (mkArgs 1 1 (-1) (-1) 1 1 (pow2 (-1)) fzero 1)
     = Some (0, 0)
  /\ is_nan (fsub (ratio 0 0) (pow2 (-1))) = true.
Proof.
  assert (Hr : ints_in_range (init (mkArgs 1 1 (-1) (-1) 1 1 (pow2 (-1)) fzero 1)))
    by (unfold ints_in_range, in_int, INT_MIN, INT_MAX; simpl; lia).
  assert (H : iterateRationalApproximation 2
                (mkArgs 1 1 (-1) (-1) 1 1 (pow2 (-1)) fzero 1) = Some (0, 0))
    by reflexivity.
  split; [reflexivity | split; [exact H | ]].
  exact (proj1 (nonpositive_precision_returns_degenerate 2
                  (mkArgs 1 1 (-1) (-1) 1 1 (pow2 (-1)) fzero 1) 0 0 eq_refl Hr H)).
Defined.

(** ** Runs in which no sum leaves the range *)

Section Preservation.
Variables (m p : double) (micro : Z).
Variable Inv : state -> Prop.
Hypothesis Inv_step :
  forall s, Inv s -> step_overflows m s = false -> Inv (mediant_step m s).

Lemma for_loop_chk_keeps (n : nat) (s s' : state) :
  Inv s -> for_loop_chk m n s = Some s' -> Inv s' /\ for_loop m n s = s'.
Proof.
  revert s. induction n as [ | n IH]; intros s Hs; cbn [for_loop_chk for_loop].
  - intros [= <-]. auto.
  - destruct (feq (ab s) m).
    + intros [= <-]. auto.
    + destruct (step_overflows m s) eqn:Ho; try discriminate.
      apply IH. now apply Inv_step.
Qed.

Lemma while_loop_chk_keeps (fuel : nat) (s r : state) :
  Inv s -> while_loop_chk m p micro fuel s = Done r ->
  Inv r /\ while_loop m p micro fuel s = Some r.
Proof.
  revert s. induction fuel as [ | fuel IH]; intros s Hs;
    cbn [while_loop_chk while_loop]; try discriminate.
  destruct (loop_cond m p s).
  - destruct (for_loop_chk m (Z.to_nat micro) s) as [s' | ] eqn:Hf; try discriminate.
    destruct (for_loop_chk_keeps _ _ _ Hs Hf) as [Hs' <-]. now apply IH.
  - intros [= <-]. auto.
Qed.
End Preservation.

(** ** Lowest terms *)

Lemma unimodular_step (m : double) (s : state) :
  mediant_form s /\ unimodular s -> step_overflows m s = false ->
  mediant_form (mediant_step m s) /\ unimodular (mediant_step m s).
Proof.
  unfold mediant_form, unimodular. intros [[Ha Hb] Hu] Ho.
  destruct (flt (ab s) m) eqn:E.
  - rewrite (mediant_step_low m s E). cbn [a b lowerA lowerB upperA upperB].
    destruct (no_overflow_low m s E Ho) as [-> ->]. rewrite Ha, Hb. lia.
  - rewrite (mediant_step_high m s E). cbn [a b lowerA lowerB upperA upperB].
    destruct (no_overflow_high m s E Ho) as [-> ->]. rewrite Ha, Hb. lia.
Qed.

Lemma unimodular_coprime (s : state) :
  mediant_form s -> unimodular s ->
  Z.gcd (a s) (b s) = 1 /\ Z.gcd (lowerA s) (lowerB s) = 1
  /\ Z.gcd (upperA s) (upperB s) = 1.
Proof.
  unfold mediant_form, unimodular. intros [Ha Hb] Hu.
  repeat split; apply Z.bezout_1_gcd.
  - exists (lowerB s), (- lowerA s). rewrite Ha, Hb. lia.
  - exists (- upperB s), (upperA s). lia.
  - exists (lowerB s), (- lowerA s). lia.
Qed.

(** X8: when the entry candidate is the mediant of bounds with
    [upperA * lowerB - lowerA * upperB = 1] and no sum leaves the range, the
    returned pair is in lowest terms, although the code never reduces a
    fraction; the final bounds are in lowest terms and neighbours too, with
    the returned candidate their mediant. *)
Theorem returned_pair_lowest_terms (fuel : nat) (g : Args) (r : state) :
  mediant_form (init g) -> unimodular (init g) ->
  while_loop_chk (mantissa g) (precision g) (microIterations g) fuel (init g) = Done r ->
  iterateRationalApproximation fuel g = Some (a r, b r)
  /\ Z.gcd (a r) (b r) = 1
  /\ mediant_form r /\ unimodular r
  /\ Z.gcd (lowerA r) (lowerB r) = 1 /\ Z.gcd (upperA r) (upperB r) = 1.
Proof.
  intros Hm Hu Hd.
  destruct (while_loop_chk_keeps (mantissa g) (precision g) (microIterations g)
              (fun s => mediant_form s /\ unimodular s)
              (unimodular_step (mantissa g)) fuel _ r (conj Hm Hu) Hd)
    as [[Hm' Hu'] Hw].
  destruct (unimodular_coprime r Hm' Hu') as (H1 & H2 & H3).
  unfold iterateRationalApproximation. rewrite Hw. auto 10.
Qed.

Lemma returned_pair_lowest_terms_witness :
  mediant_form (init farey_example) /\ unimodular (init farey_example)
  /\ iterateRationalApproximation 5 farey_example = Some (3, 10)
  /\ Z.gcd 3 10 = 1.
Proof.
  assert (Hm : mediant_form (init farey_example)) by (split; reflexivity).
  assert (Hu : unimodular (init farey_example)) by reflexivity.
  split; [exact Hm | split; [exact Hu | ]].
  destruct (returned_pair_lowest_terms 5 farey_example
              (mkState 3 10 2 7 1 3 (ratio 3 10)) Hm Hu eq_refl) as (H1 & H2 & _).
  split; [exact H1 | exact H2].
Defined.

(** ** Between the entry bounds *)

Lemma frac_le (n d n' d' : Z) :
  0 < d -> 0 < d' -> ((frac n d <= frac n' d')%Q <-> n * d' <= n' * d).
Proof.
  intros Hd Hd'. unfold frac, Qle. cbn [Qnum Qden].
  rewrite !Z2Pos.id by lia. reflexivity.
Qed.

Lemma nested_step (m : double) (s0 s : state) :
  positive_denominators s0 ->
  positive_denominators s /\ strictly_inside s /\ nested_in s0 s /\ b s0 <= b s ->
  step_overflows m s = false ->
  positive_denominators (mediant_step m s) /\ strictly_inside (mediant_step m s)
  /\ nested_in s0 (mediant_step m s) /\ b s0 <= b (mediant_step m s).
Proof.
  intros (Hb0 & Hl0 & Hu0) ((Hb & Hl & Hu) & [H1 H2] & [N1 N2] & Hbb) Ho.
  unfold strictly_inside, nested_in, positive_denominators,
    lower_frac, upper_frac, candidate_frac in *.
  apply (proj1 (frac_lt _ _ _ _ Hl Hb)) in H1.
  apply (proj1 (frac_lt _ _ _ _ Hb Hu)) in H2.
  apply (proj1 (frac_le _ _ _ _ Hl0 Hl)) in N1.
  apply (proj1 (frac_le _ _ _ _ Hu Hu0)) in N2.
  destruct (flt (ab s) m) eqn:E.
  - rewrite (mediant_step_low m s E). cbn [a b lowerA lowerB upperA upperB].
    destruct (no_overflow_low m s E Ho) as [-> ->].
    split; [lia | ]. split; [split; apply frac_lt; lia | ].
    split; [split; apply frac_le; trivial; try lia | lia].
    apply Z.mul_le_mono_pos_r with (p := lowerB s); trivial. nia.
  - rewrite (mediant_step_high m s E). cbn [a b lowerA lowerB upperA upperB].
    destruct (no_overflow_high m s E Ho) as [-> ->].
    split; [lia | ]. split; [split; apply frac_lt; lia | ].
    split; [split; apply frac_le; trivial; try lia | lia].
    apply Z.mul_le_mono_pos_r with (p := upperB s); trivial. nia.
Qed.

(** X9: with positive denominators, an entry candidate strictly between the
    entry bounds (exact fractions) and no sum out of range, the returned
    fraction lies strictly between the entry bounds, and its denominator is
    positive and not below the entry candidate's. *)
Theorem returned_pair_between_entry_bounds (fuel : nat) (g : Args) (r : state) :
  positive_denominators (init g) -> strictly_inside (init g) ->
  while_loop_chk (mantissa g) (precision g) (microIterations g) fuel (init g) = Done r ->
  iterateRationalApproximation fuel g = Some (a r, b r)
  /\ (lower_frac (init g) < candidate_frac r)%Q
  /\ (candidate_frac r < upper_frac (init g))%Q
  /\ 0 < b r /\ b (init g) <= b r.
Proof.
  intros Hp Hi Hd.
  destruct (while_loop_chk_keeps (mantissa g) (precision g) (microIterations g)
              (fun s => positive_denominators s /\ strictly_inside s
                        /\ nested_in (init g) s /\ b (init g) <= b s)
              (fun s => nested_step (mantissa g) (init g) s Hp) fuel (init g) r)
    as [((Hb & _) & [H1 H2] & [N1 N2] & Hbb) Hw]; trivial.
  { split; trivial. split; trivial. split; [split; apply Qle_refl | lia]. }
  unfold iterateRationalApproximation. rewrite Hw.
  split; trivial. split; [ | split; [ | split; trivial]].
  - eapply Qle_lt_trans; eauto.
  - eapply Qlt_le_trans; eauto.
Qed.

Lemma returned_pair_between_entry_bounds_witness :
  strictly_inside (init farey_example)
  /\ iterateRationalApproximation 5 farey_example = Some (3, 10)
  /\ (lower_frac (init farey_example) < frac 3 10)%Q
  /\ (frac 3 10 < upper_frac (init farey_example))%Q.
Proof.
  assert (Hp : positive_denominators (init farey_example))
    by (unfold positive_denominators; simpl; lia).
  assert (Hi : strictly_inside (init farey_example))
    by (split; apply frac_lt; simpl; lia).
  split; [exact Hi | ].
  destruct (returned_pair_between_entry_bounds 5 farey_example
              (mkState 3 10 2 7 1 3 (ratio 3 10)) Hp Hi eq_refl) as (H1 & H2 & H3 & _).
  split; [exact H1 | split; [exact H2 | exact H3]].
Defined.

(** * Further properties of the sign function *)

(** X11: on a nonzero 32-bit [num] every [zero] that fits an [int], or
    none, gives the same result, which is [1] or [-1] and splits [num] into
    sign and magnitude: [intSign num * |num| = num] and
    [intSign num * num = |num|]; a [zero] that does not fit an [int] makes
    the call fail although its value would not be used. *)
Theorem intSign_magnitude (num : Z) (zero : option Z) :
  in_int num -> num <> 0 ->
  (match zero with Some z => in_int z | None => True end ->
   exists sg, py_intSign num zero = Some sg
              /\ py_intSign num None = Some sg
              /\ (sg = 1 \/ sg = -1)
              /\ sg * Z.abs num = num /\ sg * num = Z.abs num)
  /\ (forall z, ~ in_int z -> py_intSign num (Some z) = None).
Proof.
  intros Hr Hn. unfold py_intSign. rewrite (parse_int_in_range num Hr). split.
  - intros Hz. exists (intSign num None).
    assert (Hs : forall z, intSign num z = intSign num None).
    { intros z. rewrite !intSign_spec by trivial. unfold sign_spec.
      destruct (num =? 0) eqn:H0; [apply Z.eqb_eq in H0; contradiction | trivial]. }
    split.
    + destruct zero as [z | ]; trivial.
      rewrite (parse_int_in_range z Hz). f_equal. apply Hs.
    + split; trivial. rewrite intSign_spec by trivial. unfold sign_spec.
      destruct (num =? 0) eqn:H0; [apply Z.eqb_eq in H0; contradiction | ].
      destruct (0 <? num) eqn:Hlt;
        [apply Z.ltb_lt in Hlt | apply Z.ltb_ge in Hlt]; lia.
  - intros z Hz. now rewrite (parse_int_out_of_range z Hz).
Qed.

Lemma intSign_magnitude_witness :
  in_int INT_MIN /\ in_int 5
  /\ exists sg, py_intSign INT_MIN (Some 5) = Some sg
                /\ py_intSign INT_MIN None = Some sg
                /\ sg * Z.abs INT_MIN = INT_MIN.
Proof.
  assert (Hr : in_int INT_MIN) by (unfold in_int, INT_MIN, INT_MAX; lia).
  assert (Hz : in_int 5) by (unfold in_int, INT_MIN, INT_MAX; lia).
  split; [exact Hr | split; [exact Hz | ]].
  assert (Hn : INT_MIN <> 0) by (unfold INT_MIN; lia).
  destruct (proj1 (intSign_magnitude INT_MIN (Some 5) Hr Hn) Hz)
    as (sg & H1 & H2 & _ & H3 & _).
  exists sg. split; [exact H1 | split; [exact H2 | exact H3]].
Defined.

(** X12: with the default [zero], [intSign] is the sign function of the
    integers on 32-bit values: it is multiplicative on products that fit an
    [int], idempotent, and odd wherever [-x] fits (every [x] but [INT_MIN]). *)
Theorem intSign_algebra (x y : Z) :
  in_int x -> in_int y -> in_int (x * y) ->
  intSign (x * y) None = intSign x None * intSign y None
  /\ intSign (intSign x None) None = intSign x None
  /\ (in_int (- x) -> intSign (- x) None = - intSign x None)
  /\ intSign x None = Z.sgn x.
Proof.
  intros Hx Hy Hxy.
  assert (Hs : forall z, in_int z -> intSign z None = Z.sgn z).
  { intros z Hz. rewrite intSign_spec by trivial. unfold sign_spec.
    destruct (z =? 0) eqn:H0; [apply Z.eqb_eq in H0; now subst | ].
    apply Z.eqb_neq in H0.
    destruct (0 <? z) eqn:Hlt; [apply Z.ltb_lt in Hlt | apply Z.ltb_ge in Hlt]; lia. }
  rewrite (Hs x Hx), (Hs y Hy), (Hs _ Hxy).
  split; [apply Z.sgn_mul | ]. split; [ | split; trivial].
  - rewrite Hs; [apply Z.sgn_sgn | ].
    unfold in_int, INT_MIN, INT_MAX. lia.
  - intros Hn. rewrite (Hs _ Hn). apply Z.sgn_opp.
Qed.

Lemma intSign_algebra_witness :
  in_int (-6) /\ in_int 7 /\ in_int (-6 * 7)
  /\ intSign (-6 * 7) None = intSign (-6) None * intSign 7 None
  /\ intSign (intSign (-6) None) None = intSign (-6) None.
Proof.
  assert (H1 : in_int (-6)) by (unfold in_int, INT_MIN, INT_MAX; lia).
  assert (H2 : in_int 7) by (unfold in_int, INT_MIN, INT_MAX; lia).
  assert (H3 : in_int (-6 * 7)) by (unfold in_int, INT_MIN, INT_MAX; lia).
  split; [exact H1 | split; [exact H2 | split; [exact H3 | ]]].
  destruct (intSign_algebra (-6) 7 H1 H2 H3) as (H4 & H5 & _).
  split; [exact H4 | exact H5].
Defined.
Lemma finite_compare_trans (e1 e2 e3 : Z) (m1 m2 m3 : positive) (c : comparison) :
  match e1 ?= e2 with Eq => Pos.compare_cont Eq m1 m2 | Lt => Lt | Gt => Gt end = c ->
  (match e2 ?= e3 with Eq => Pos.compare_cont Eq m2 m3 | Lt => Lt | Gt => Gt end = c
   \/ match e2 ?= e3 with Eq => Pos.compare_cont Eq m2 m3 | Lt => Lt | Gt => Gt end = Eq) ->
  match e1 ?= e3 with Eq => Pos.compare_cont Eq m1 m3 | Lt => Lt | Gt => Gt end = c.
Proof.
  change (Pos.compare_cont Eq m1 m2) with (m1 ?= m2)%positive.
  change (Pos.compare_cont Eq m2 m3) with (m2 ?= m3)%positive.
  change (Pos.compare_cont Eq m1 m3) with (m1 ?= m3)%positive.
  destruct (Z.compare_spec e1 e2), (Z.compare_spec e2 e3), (Z.compare_spec e1 e3);
    try lia; try (intros Hc [Hc' | Hc']; congruence);
    destruct (Pos.compare_spec m1 m2), (Pos.compare_spec m2 m3),
      (Pos.compare_spec m1 m3); try lia; intros Hc [Hc' | Hc']; congruence.
Qed.

Lemma SFcompare_lt_le_trans (x y z : double) :
  SFcompare x y = Some Lt ->
  SFcompare y z = Some Lt \/ SFcompare y z = Some Eq ->
  SFcompare x z = Some Lt.
Proof.
  destruct x as [sx | sx | | sx mx ex], y as [sy | sy | | sy my ey],
    z as [sz | sz | | sz mz ez]; cbn [SFcompare];
    try (intros H [H' | H']; discriminate);
    try (destruct sx; intros H [H' | H']; discriminate);
    try (destruct sy; intros H [H' | H']; discriminate);
    try (destruct sz; intros H [H' | H']; discriminate);
    try (destruct sx, sy; intros H [H' | H']; discriminate);
    try (destruct sx, sz; intros H [H' | H']; discriminate);
    try (destruct sy, sz; intros H [H' | H']; discriminate);
    try (destruct sx, sy, sz; intros H [H' | H']; (discriminate || reflexivity)).
  destruct sx, sy, sz; intros H H'; try reflexivity;
    try (destruct H'; discriminate); try discriminate.
  - f_equal. injection H as H.
    assert (H2 : match ey ?= ez with Eq => Pos.compare_cont Eq my mz | Lt => Lt | Gt => Gt end = Gt
                 \/ match ey ?= ez with Eq => Pos.compare_cont Eq my mz | Lt => Lt | Gt => Gt end = Eq).
    { destruct H' as [H' | H']; injection H' as H';
        destruct (ey ?= ez); try discriminate; auto;
        destruct (Pos.compare_cont Eq my mz); try discriminate; auto. }
    assert (H1 : match ex ?= ey with Eq => Pos.compare_cont Eq mx my | Lt => Lt | Gt => Gt end = Gt).
    { destruct (ex ?= ey); try discriminate; auto;
        destruct (Pos.compare_cont Eq mx my); try discriminate; auto. }
    pose proof (finite_compare_trans _ _ _ _ _ _ Gt H1 H2) as H3.
    destruct (ex ?= ez); try discriminate; trivial. now rewrite H3.
  - f_equal. injection H as H.
    assert (H2 : match ey ?= ez with Eq => Pos.compare_cont Eq my mz | Lt => Lt | Gt => Gt end = Lt
                 \/ match ey ?= ez with Eq => Pos.compare_cont Eq my mz | Lt => Lt | Gt => Gt end = Eq).
    { destruct H' as [H' | H']; injection H' as H'; auto. }
    exact (finite_compare_trans _ _ _ _ _ _ Lt H H2).
Qed.

Lemma loop_cond_looser (m p p' : double) (s : state) :
  fle p p' = true -> loop_cond m p s = false -> loop_cond m p' s = false.
Proof.
  unfold loop_cond, fle, SFleb, fge.
  set (d := fabs (fsub (ab s) m)). intros Hle Hc.
  destruct (SFcompare d p) as [c | ] eqn:Hd.
  - destruct c; try discriminate.
    rewrite (SFcompare_lt_le_trans d p p' Hd); trivial.
    destruct (SFcompare p p') as [[ | | ] | ]; try discriminate; auto.
  - assert (Hn : is_nan d = true \/ is_nan p = true).
    { destruct d, p; try discriminate; auto. }
    destruct Hn as [Hn | Hn].
    + destruct d; try discriminate. reflexivity.
    + destruct p; discriminate.
Qed.

Lemma first_false (f : nat -> bool) (k : nat) :
  f k = false ->
  exists k', (k' <= k)%nat /\ f k' = false /\ forall j, (j < k')%nat -> f j = true.
Proof.
  revert f. induction k as [ | k IH]; intros f Hk.
  - exists O. repeat split; trivial. intros j Hj. lia.
  - destruct (f O) eqn:H0.
    + destruct (IH (fun j => f (S j)) Hk) as (k' & Hle & Hf & Hj).
      exists (S k'). split; [lia | ]. split; trivial.
      intros [ | j] Hlt; trivial. apply Hj. lia.
    + exists O. split; [lia | ]. split; trivial. intros j Hj. lia.
Qed.

(** X4: a looser precision never delays the return: if the loop returns
    after [k] passes with precision [p], then with any [p' >= p] and the same
    fuel it returns after [k' <= k] passes, a state of the same sequence. *)
Theorem looser_precision_returns_no_later
    (m p p' : double) (micro : Z) (fuel : nat) (s r : state) :
  fle p p' = true -> while_loop m p micro fuel s = Some r ->
  exists k k', (k' <= k)%nat /\ r = boundary m micro k s
               /\ while_loop m p' micro fuel s = Some (boundary m micro k' s).
Proof.
  intros Hle Hw. apply while_loop_first_boundary in Hw.
  destruct Hw as (k & Hk & -> & Hf & Hj).
  pose proof (loop_cond_looser m p p' _ Hle Hf) as Hf'.
  destruct (first_false (fun j => loop_cond m p' (boundary m micro j s)) k Hf')
    as (k' & Hle' & Hf'' & Hj').
  exists k, k'. split; trivial. split; trivial.
  apply while_loop_first_boundary. exists k'.
  split; [lia | ]. auto.
Qed.

Lemma looser_precision_returns_no_later_witness :
  fle (pow2 (-6)) (pow2 (-4)) = true
  /\ exists k k',
      (k' <= k)%nat
      /\ mkState 3 10 2 7 1 3 (ratio 3 10)
         = boundary (mantissa farey_example) 1 k (init farey_example)
      /\ while_loop (mantissa farey_example) (pow2 (-4)) 1 5 (init farey_example)
         = Some (boundary (mantissa farey_example) 1 k' (init farey_example)).
Proof.
  split; [reflexivity | ].
  exact (looser_precision_returns_no_later (mantissa farey_example)
           (pow2 (-6)) (pow2 (-4)) 1 5 (init farey_example)
           (mkState 3 10 2 7 1 3 (ratio 3 10)) eq_refl eq_refl).
Defined.

(** X3: batching only delays the return: if the loop returns with some
    [microIterations], the state returned is the one reached after some [n]
    inner steps, and with [microIterations = 1] the loop returns as well, at
    the first step count [n1 <= n] whose test fails. *)
Theorem batching_only_delays (m p : double) (micro : Z) (fuel : nat) (s r : state) :
  while_loop m p micro fuel s = Some r ->
  exists n n1, (n1 <= n)%nat /\ r = for_loop m n s
               /\ while_loop m p 1 (S n) s = Some (for_loop m n1 s)
               /\ forall j, (j < n1)%nat -> loop_cond m p (for_loop m j s) = true.
Proof.
  intros Hw. apply while_loop_first_boundary in Hw.
  destruct Hw as (k & Hk & -> & Hf & _). unfold boundary in *.
  set (n := (k * Z.to_nat micro)%nat) in *.
  destruct (first_false (fun j => loop_cond m p (for_loop m j s)) n Hf)
    as (n1 & Hle & Hf1 & Hj1).
  exists n, n1. split; trivial. split; trivial. split; trivial.
  apply while_loop_first_boundary. exists n1. unfold boundary.
  change (Z.to_nat 1) with 1%nat. rewrite Nat.mul_1_r.
  split; [lia | ]. split; trivial. split; trivial.
  intros j Hlt. rewrite Nat.mul_1_r. now apply Hj1.
Qed.

Lemma batching_only_delays_witness :
  while_loop (mantissa overshoot_example) (precision overshoot_example) 2 4
    (init overshoot_example) = Some (mkState 6 11 1 2 5 9 (ratio 6 11))
  /\ exists n n1,
      (n1 <= n)%nat
      /\ mkState 6 11 1 2 5 9 (ratio 6 11)
         = for_loop (mantissa overshoot_example) n (init overshoot_example)
      /\ while_loop (mantissa overshoot_example) (precision overshoot_example) 1 (S n)
           (init overshoot_example)
         = Some (for_loop (mantissa overshoot_example) n1 (init overshoot_example)).
Proof.
  assert (H : while_loop (mantissa overshoot_example) (precision overshoot_example) 2 4
                (init overshoot_example) = Some (mkState 6 11 1 2 5 9 (ratio 6 11)))
    by reflexivity.
  split; [exact H | ].
  destruct (batching_only_delays _ _ _ _ _ _ H) as (n & n1 & H1 & H2 & H3 & _).
  exists n, n1. split; [exact H1 | split; [exact H2 | exact H3]].
Defined.
